(** * Graph query engine of reactsubjectviz (search module)

    Shallow embedding of the TypeScript graph functions.  Vertex ids are
    JS numbers used as integers ([Z]); a JS [Set<number>] is a duplicate-free
    list kept in insertion order (the order [Array.from] and iteration use);
    a JS [while] loop is [while_loop] over an explicit loop state, run with a
    fuel bound that is proved sufficient where a claim needs it. *)

From Stdlib Require Import List ZArith Bool Arith Lia Permutation Sorted.
Import ListNotations.
Open Scope Z_scope.

(** ** Data model *)

(** [interface DirectedEdge { source: number; target: number }] *)
Record DirectedEdge := mkEdge { source : Z; target : Z }.

(** ** JS [Set<number>] operations *)

Definition set_has (x : Z) (s : list Z) : bool := existsb (Z.eqb x) s.

(** [Set.prototype.add]: appends when absent, keeps insertion order. *)
Definition set_add (x : Z) (s : list Z) : list Z :=
  if set_has x s then s else s ++ [x].

(** [Set.prototype.delete]. *)
Definition set_delete (x : Z) (s : list Z) : list Z :=
  filter (fun y => negb (Z.eqb y x)) s.

(** [new Set(values)] *)
Definition set_of_list (l : list Z) : list Z :=
  fold_left (fun s x => set_add x s) l [].

(** [const uniqueNumbers = (values) => Array.from(new Set(values))] *)
Definition uniqueNumbers (values : list Z) : list Z := set_of_list values.

(** ** Loops *)

(** One iteration of a loop body: either go round again with a new loop
    state, or leave the loop (by [return] or by a false guard) with a value. *)
Inductive loop_step (St R : Type) : Type :=
| Continue (s : St)
| Break (r : R).
Arguments Continue {St R} s.
Arguments Break {St R} r.

(** [while_loop body fuel s] runs [body] until it breaks; [None] means the
    fuel ran out, which the termination lemmas below rule out. *)
Fixpoint while_loop {St R : Type} (body : St -> loop_step St R)
    (fuel : nat) (s : St) : option R :=
  match fuel with
  | O => None
  | Datatypes.S f =>
      match body s with
      | Continue s' => while_loop body f s'
      | Break r => Some r
      end
  end.

(** Fuel bound used for the loops of the engine: quadratic in |edges|. *)
Definition fuel (edges : list DirectedEdge) : nat :=
  ((2 * length edges + 2) * (length edges + 1) + 2)%nat.

(** ** Graph index (src/unnamed/part_003) *)

Definition parents (id : Z) (edges : list DirectedEdge) : list Z :=
  uniqueNumbers (map source (filter (fun edge => Z.eqb (target edge) id) edges)).

Definition children (id : Z) (edges : list DirectedEdge) : list Z :=
  uniqueNumbers (map target (filter (fun edge => Z.eqb (source edge) id) edges)).

Definition everything (edges : list DirectedEdge) : list Z :=
  uniqueNumbers (flat_map (fun edge => [source edge; target edge]) edges).

(** ** Worklist relationship queries

    The JS array [queue] is used as a stack ([pop]/[push] at its end); here
    its top is the head of the list. *)

(** [parentsOfNextId.forEach(p => { if (!acc.has(p)) queue.push(p) })] *)
Definition push_new (acc : list Z) (queue : list Z) (ps : list Z) : list Z :=
  fold_left (fun q p => if set_has p acc then q else p :: q) ps queue.

(** Body of [while (queue.length > 0)] in [ancestors] ([next] = [parents])
    and in [descendants] ([next] = [children]). *)
Definition worklist_body (next : Z -> list Z) (st : list Z * list Z)
    : loop_step (list Z * list Z) (list Z) :=
  let '(queue, acc) := st in
  match queue with
  | [] => Break acc
  | nextId :: rest =>
      let acc' := set_add nextId acc in
      Continue (push_new acc' rest (next nextId), acc')
  end.

Definition ancestors_run (id : Z) (edges : list DirectedEdge) : option (list Z) :=
  while_loop (worklist_body (fun v => parents v edges)) (fuel edges)
    (rev (parents id edges), []).

Definition ancestors (id : Z) (edges : list DirectedEdge) : list Z :=
  match ancestors_run id edges with Some r => r | None => [] end.

Definition descendants_run (id : Z) (edges : list DirectedEdge) : option (list Z) :=
  while_loop (worklist_body (fun v => children v edges)) (fuel edges)
    (rev (children id edges), []).

Definition descendants (id : Z) (edges : list DirectedEdge) : list Z :=
  match descendants_run id edges with Some r => r | None => [] end.

Definition descendantsAndSelf (id : Z) (edges : list DirectedEdge) : list Z :=
  uniqueNumbers ([id] ++ descendants id edges).

Definition parentsAndSelf (id : Z) (edges : list DirectedEdge) : list Z :=
  uniqueNumbers ([id] ++ parents id edges).

Definition siblings (id : Z) (edges : list DirectedEdge) : list Z :=
  uniqueNumbers
    (filter (fun child => negb (Z.eqb child id))
       (flat_map (fun parent => children parent edges) (parents id edges))).

Definition cousins (id : Z) (edges : list DirectedEdge) : list Z :=
  uniqueNumbers (flat_map (fun sibling => descendants sibling edges) (siblings id edges)).

Definition related (id : Z) (edges : list DirectedEdge) : list Z :=
  uniqueNumbers (ancestors id edges ++ descendants id edges).

Definition relatedAndSelf (id : Z) (edges : list DirectedEdge) : list Z :=
  uniqueNumbers (related id edges ++ [id]).

Definition ancestorsAndSelf (id : Z) (edges : list DirectedEdge) : list Z :=
  uniqueNumbers (ancestors id edges ++ [id]).

Definition cousinsAndSelf (id : Z) (edges : list DirectedEdge) : list Z :=
  uniqueNumbers (cousins id edges ++ [id]).

Definition siblingsAndSelf (id : Z) (edges : list DirectedEdge) : list Z :=
  uniqueNumbers (siblings id edges ++ [id]).

Definition childrenAndSelf (id : Z) (edges : list DirectedEdge) : list Z :=
  uniqueNumbers (children id edges ++ [id]).

Definition isolatedNodes (edges : list DirectedEdge) : list Z :=
  uniqueNumbers
    (filter (fun id => Nat.eqb (length (related id edges)) 0) (everything edges)).

(** ** Fixed-point traversal *)

(** [type Traversal = "web" | "ancestors" | "descendants" | "tree"] *)
Inductive Traversal := Web | Ancestors | Descendants | Tree.

Definition mode_up (mode : Traversal) : bool :=
  match mode with Ancestors | Web => true | _ => false end.

Definition mode_down (mode : Traversal) : bool :=
  match mode with Descendants | Web => true | _ => false end.

(** Body of [for (const edge of edges)]: the two [if]s, in order, on the
    loop state [(visited, running)]. *)
Definition sweep_edge (mode : Traversal) (st : list Z * bool) (edge : DirectedEdge)
    : list Z * bool :=
  let '(visited, running) := st in
  let '(visited, running) :=
    if mode_up mode && negb (set_has (source edge) visited)
       && set_has (target edge) visited
    then (set_add (source edge) visited, true) else (visited, running) in
  if mode_down mode && negb (set_has (target edge) visited)
     && set_has (source edge) visited
  then (set_add (target edge) visited, true) else (visited, running).

(** Body of [while (running) { running = false; for (...) ... }]. *)
Definition traverse_body (mode : Traversal) (edges : list DirectedEdge)
    (visited : list Z) : loop_step (list Z) (list Z) :=
  let '(visited', running) := fold_left (sweep_edge mode) edges (visited, false) in
  if running then Continue visited' else Break visited'.

Definition traverse_run (id : Z) (edges : list DirectedEdge) (mode : Traversal)
    : option (list Z) :=
  while_loop (traverse_body mode edges) (fuel edges) [id].

(** [traverse] for a mode other than ["tree"]: the sweep, then
    [visited.delete(id)]. *)
Definition traverse_sweep (id : Z) (edges : list DirectedEdge) (mode : Traversal)
    : list Z :=
  set_delete id (match traverse_run id edges mode with Some v => v | None => [] end).

Definition traverse (id : Z) (edges : list DirectedEdge) (mode : Traversal) : list Z :=
  match mode with
  | Tree =>
      set_of_list ([id] ++ traverse_sweep id edges Ancestors
                       ++ traverse_sweep id edges Descendants)
  | _ => traverse_sweep id edges mode
  end.

(** ** Priority queue and shortest path *)

(** A queue entry [[distance, path]]. *)
Definition entry : Type := (Z * list Z)%type.

(** [this._queue.sort((a, b) => a[0] - b[0])]: [Array.prototype.sort] is
    stable, so its result is the stable insertion sort by distance. *)
Fixpoint insert_by_distance (e : entry) (q : list entry) : list entry :=
  match q with
  | [] => [e]
  | f :: q' => if fst e - fst f <? 0 then e :: f :: q' else f :: insert_by_distance e q'
  end.

Definition sort_by_distance (q : list entry) : list entry :=
  fold_left (fun acc e => insert_by_distance e acc) q [].

(** [enqueue]: [push] then [sort]. *)
Definition enqueue (e : entry) (q : list entry) : list entry :=
  sort_by_distance (q ++ [e]).

(** [dequeue]: [this._queue.shift()], [undefined] on the empty queue. *)
Definition dequeue (q : list entry) : option entry * list entry :=
  match q with
  | [] => (None, [])
  | e :: q' => (Some e, q')
  end.

(** Body of [while (queue.length > 0)] in [dijkstraShortestPath]. *)
Definition dijkstra_body (target : Z) (edges : list DirectedEdge)
    (st : list entry * list Z) : loop_step (list entry * list Z) (list Z) :=
  let '(queue, visited) := st in
  match queue with
  | [] => Break []
  | (distance, path) :: rest =>
      let current := last path 0 in
      if Z.eqb current target then Break path
      else if set_has current visited then Continue (rest, visited)
      else
        Continue (fold_left (fun q child => enqueue (distance + 1, path ++ [child]) q)
                    (children current edges) rest,
                  set_add current visited)
  end.

Definition dijkstra_run (source target : Z) (edges : list DirectedEdge)
    : option (list Z) :=
  while_loop (dijkstra_body target edges) (fuel edges)
    (enqueue (0, [source]) [], []).

Definition dijkstraShortestPath (source target : Z) (edges : list DirectedEdge)
    : list Z :=
  match dijkstra_run source target edges with Some p => p | None => [] end.

(** ** Route inspection *)

Definition oddNodes (edges : list DirectedEdge) : list Z :=
  filter (fun id => Nat.eqb (Nat.modulo (length (related id edges)) 2) 1)
    (everything edges).

Definition oddPairs (edges : list DirectedEdge) : list (Z * Z) :=
  flat_map (fun id => map (fun otherId => (id, otherId))
                         (filter (fun otherId => negb (Z.eqb otherId id))
                            (oddNodes edges)))
    (oddNodes edges).

Definition postman (edges : list DirectedEdge) : list (list Z) :=
  map (fun '(s, t) => dijkstraShortestPath s t edges) (oddPairs edges).

Definition postmanTour (edges : list DirectedEdge) : list Z :=
  uniqueNumbers (concat (postman edges)).

(** ** Cycle detection *)

(** How the inner [while] of [hasCycle] is left. *)
Inductive cycle_exit := Found | Drained (visited : list Z).

(** [for (const child of children) { if (stack.has(child)) return true;
      if (!visited.has(child)) stack.add(child); }] *)
Fixpoint scan_related (cs : list Z) (stack visited : list Z)
    : loop_step (list Z) cycle_exit :=
  match cs with
  | [] => Continue stack
  | child :: cs' =>
      if set_has child stack then Break Found
      else scan_related cs' (if set_has child visited then stack else set_add child stack)
             visited
  end.

(** Body of [while (stack.size > 0)]; [stack.values().next().value] is the
    first element in insertion order. *)
Definition hasCycle_body (edges : list DirectedEdge) (st : list Z * list Z)
    : loop_step (list Z * list Z) cycle_exit :=
  let '(stack, visited) := st in
  match stack with
  | [] => Break (Drained visited)
  | current :: _ =>
      let stack1 := set_delete current stack in
      let visited1 := set_add current visited in
      match scan_related (related current edges) stack1 visited1 with
      | Break r => Break r
      | Continue stack2 => Continue (stack2, visited1)
      end
  end.

(** [for (const node of nodes)]; the shared [stack] is empty whenever the
    inner loop is left normally, so [stack.add(node)] gives [[node]]. *)
Fixpoint hasCycle_nodes (edges : list DirectedEdge) (nodes visited : list Z)
    : option bool :=
  match nodes with
  | [] => Some false
  | node :: nodes' =>
      if set_has node visited then hasCycle_nodes edges nodes' visited
      else
        match while_loop (hasCycle_body edges) (fuel edges) (set_add node [], visited) with
        | None => None
        | Some Found => Some true
        | Some (Drained visited') => hasCycle_nodes edges nodes' visited'
        end
  end.

Definition hasCycle_run (edges : list DirectedEdge) : option bool :=
  hasCycle_nodes edges (everything edges) [].

Definition hasCycle (edges : list DirectedEdge) : bool :=
  match hasCycle_run edges with Some b => b | None => false end.

Definition undirected (edges : list DirectedEdge) : list DirectedEdge :=
  flat_map (fun edge => [edge; mkEdge (target edge) (source edge)]) edges.

(** ** The traversals of src/src/search.ts

    This module keeps its own [parents]/[children] (no de-duplication) and
    the recursive [ancestors]/[descendants]. *)
Module SearchTs.

Definition parents (id : Z) (edges : list DirectedEdge) : list Z :=
  map source (filter (fun edge => Z.eqb (target edge) id) edges).

Definition children (id : Z) (edges : list DirectedEdge) : list Z :=
  map target (filter (fun edge => Z.eqb (source edge) id) edges).

(** [parentsOfId.flatMap(parent => ancestors(parent, edges))], with the
    recursive calls made at depth [fuel]. *)
Fixpoint flat_map_opt (g : Z -> option (list Z)) (l : list Z) : option (list Z) :=
  match l with
  | [] => Some []
  | x :: l' =>
      match g x, flat_map_opt g l' with
      | Some a, Some b => Some (a ++ b)
      | _, _ => None
      end
  end.

(** The recursion of [ancestors] bounded by a call depth [depth]; [None]
    means the call depth ran out. *)
Fixpoint ancestors_rec (depth : nat) (id : Z) (edges : list DirectedEdge)
    : option (list Z) :=
  match depth with
  | O => None
  | Datatypes.S d =>
      let parentsOfId := parents id edges in
      match flat_map_opt (fun parent => ancestors_rec d parent edges) parentsOfId with
      | Some l => Some (parentsOfId ++ l)
      | None => None
      end
  end.

Fixpoint descendants_rec (depth : nat) (id : Z) (edges : list DirectedEdge)
    : option (list Z) :=
  match depth with
  | O => None
  | Datatypes.S d =>
      let childrenOfId := children id edges in
      match flat_map_opt (fun child => descendants_rec d child edges) childrenOfId with
      | Some l => Some (childrenOfId ++ l)
      | None => None
      end
  end.

Definition descendantsAndSelf_rec (depth : nat) (id : Z) (edges : list DirectedEdge)
    : option (list Z) :=
  option_map (fun d => [id] ++ d) (descendants_rec depth id edges).

Definition parentsAndSelf (id : Z) (edges : list DirectedEdge) : list Z :=
  [id] ++ parents id edges.

Definition siblings (id : Z) (edges : list DirectedEdge) : list Z :=
  filter (fun child => negb (Z.eqb child id))
    (flat_map (fun parent => children parent edges) (parents id edges)).

Definition cousins_rec (depth : nat) (id : Z) (edges : list DirectedEdge)
    : option (list Z) :=
  flat_map_opt (fun sibling => descendants_rec depth sibling edges) (siblings id edges).

(** [ancestors(id, edges).concat(descendants(id, edges))]: [ancestors] is
    evaluated first, and a diverging call makes the whole call diverge. *)
Definition related_rec (depth : nat) (id : Z) (edges : list DirectedEdge)
    : option (list Z) :=
  match ancestors_rec depth id edges with
  | Some a =>
      match descendants_rec depth id edges with
      | Some d => Some (a ++ d)
      | None => None
      end
  | None => None
  end.

(** [related(id, edges).concat(id)]: [concat] with a number appends it. *)
Definition relatedAndSelf_rec (depth : nat) (id : Z) (edges : list DirectedEdge)
    : option (list Z) :=
  option_map (fun r => r ++ [id]) (related_rec depth id edges).

(** Body of the [while] loop of [maze] and of [bfs]: they differ only in
    where [push(...children)] puts the children relative to the element
    taken next ([pop] takes the last one, [shift] the first). *)
Definition visit_body (edges : list DirectedEdge)
    (push : list Z -> list Z -> list Z)
    (st : list Z * list Z * list Z) : loop_step (list Z * list Z * list Z) (list Z) :=
  let '(work, visited, result) := st in
  match work with
  | [] => Break result
  | current :: rest =>
      if set_has current visited then Continue (rest, visited, result)
      else Continue (push (children current edges) rest,
                     set_add current visited, result ++ [current])
  end.

(** [maze]: the stack's top is the head, so [stack.push(...cs)] puts [rev cs]
    in front. *)
Definition maze_run (start : Z) (edges : list DirectedEdge) : option (list Z) :=
  while_loop (visit_body edges (fun cs rest => rev cs ++ rest)) (fuel edges)
    ([start], [], []).

Definition maze (start : Z) (edges : list DirectedEdge) : list Z :=
  match maze_run start edges with Some r => r | None => [] end.

(** [bfs]: [queue.shift()] takes the head, [queue.push(...cs)] appends. *)
Definition bfs_run (start : Z) (edges : list DirectedEdge) : option (list Z) :=
  while_loop (visit_body edges (fun cs rest => rest ++ cs)) (fuel edges)
    ([start], [], []).

Definition bfs (start : Z) (edges : list DirectedEdge) : list Z :=
  match bfs_run start edges with Some r => r | None => [] end.

(** Body of the [while] loop of [dfs]; stack entries are [{ id, depth }]. *)
Definition dfs_body (edges : list DirectedEdge) (maxDepth : Z)
    (st : list (Z * Z) * list Z * list Z)
    : loop_step (list (Z * Z) * list Z * list Z) (list Z) :=
  let '(stack, visited, result) := st in
  match stack with
  | [] => Break result
  | (id, depth) :: rest =>
      if set_has id visited then Continue (rest, visited, result)
      else
        let stack' :=
          if depth <? maxDepth
          then rev (map (fun child => (child, depth + 1)) (children id edges)) ++ rest
          else rest in
        Continue (stack', set_add id visited, result ++ [id])
  end.

Definition dfs_run (start : Z) (edges : list DirectedEdge) (maxDepth : Z)
    : option (list Z) :=
  while_loop (dfs_body edges maxDepth) (fuel edges) ([(start, 0%Z)], [], []).

Definition dfs (start : Z) (edges : list DirectedEdge) (maxDepth : Z) : list Z :=
  match dfs_run start edges maxDepth with Some r => r | None => [] end.

(** Body of the [while] loop of [shortestPath]: queue entries are
    [{ id, path }], taken with [shift] and appended with [push]. *)
Definition shortestPath_body (end_ : Z) (edges : list DirectedEdge)
    (st : list (Z * list Z) * list Z)
    : loop_step (list (Z * list Z) * list Z) (list Z) :=
  let '(queue, visited) := st in
  match queue with
  | [] => Break []
  | (id, path) :: rest =>
      if set_has id visited then Continue (rest, visited)
      else
        let visited' := set_add id visited in
        if Z.eqb id end_ then Break path
        else Continue (rest ++ map (fun child => (child, path ++ [child]))
                                   (children id edges), visited')
  end.

Definition shortestPath_run (start end_ : Z) (edges : list DirectedEdge)
    : option (list Z) :=
  while_loop (shortestPath_body end_ edges) (fuel edges) ([(start, [start])], []).

Definition shortestPath (start end_ : Z) (edges : list DirectedEdge) : list Z :=
  match shortestPath_run start end_ edges with Some p => p | None => [] end.

End SearchTs.

(** ** Graph relations used to state the properties *)

(** [(x, y)] is a directed edge of [edges]. *)
Definition edge_in (edges : list DirectedEdge) (x y : Z) : Prop := In (mkEdge x y) edges.

Definition has_edge (edges : list DirectedEdge) (x y : Z) : bool :=
  existsb (fun e => Z.eqb (source e) x && Z.eqb (target e) y) edges.

(** Non-empty chains of [R]: [tc (edge_in E) x y] says [y] is reachable
    from [x] along at least one directed edge. *)
Inductive tc (R : Z -> Z -> Prop) : Z -> Z -> Prop :=
| tc_one x y : R x y -> tc R x y
| tc_step x y z : R x y -> tc R y z -> tc R x z.

(** [walk E s v m]: a directed walk of [m] hops from [s] to [v]. *)
Inductive walk (edges : list DirectedEdge) (s : Z) : Z -> nat -> Prop :=
| walk_refl : walk edges s s 0
| walk_step u v m : walk edges s u m -> edge_in edges u v -> walk edges s v (Datatypes.S m).

(** Every consecutive pair of [p] is a directed edge. *)
Fixpoint chain (edges : list DirectedEdge) (p : list Z) : bool :=
  match p with
  | x :: ((y :: _) as r) => has_edge edges x y && chain edges r
  | _ => true
  end.

(** [p] is a vertex sequence from [s] to [t] along directed edges. *)
Definition is_path (edges : list DirectedEdge) (s t : Z) (p : list Z) : Prop :=
  hd_error p = Some s /\ last p 0 = t /\ chain edges p = true.

(** The edge list with every edge reversed. *)
Definition flip_edges (edges : list DirectedEdge) : list DirectedEdge :=
  map (fun e => mkEdge (target e) (source e)) edges.

(** Number of vertices of [U] not yet in the visited set [V]. *)
Definition unvisited (U V : list Z) : nat :=
  length (filter (fun x => negb (set_has x V)) U).

(** Loop invariant of the [ancestors]/[descendants] worklist for the
    predecessor relation [R] listed by [next], and its measure. *)
Definition wl_inv (R : Z -> Z -> Prop) (next : Z -> list Z) (id : Z) (U : list Z)
    (st : list Z * list Z) : Prop :=
  let '(queue, acc) := st in
  (forall x, In x queue \/ In x acc -> tc R x id) /\
  (forall x p, In x acc -> R p x -> In p acc \/ In p queue) /\
  (forall p, R p id -> In p acc \/ In p queue) /\
  (forall s1 x s2 p, queue = s1 ++ x :: s2 -> In x acc -> R p x -> In p acc \/ In p s1) /\
  incl queue U /\ incl acc U /\ NoDup acc.

Definition wl_measure (U : list Z) (B : nat) (st : list Z * list Z) : nat :=
  let '(queue, acc) := st in (unvisited U acc * (B + 1) + length queue)%nat.

(** Queue order of [dijkstraShortestPath]: by distance. *)
Definition key_le (a b : entry) : Prop := fst a <= fst b.

(** Loop invariant of [dijkstraShortestPath source target] and its measure. *)
Definition dj_inv (edges : list DirectedEdge) (s t : Z) (st : list entry * list Z) : Prop :=
  let '(queue, visited) := st in
  (forall d p, In (d, p) queue ->
     hd_error p = Some s /\ chain edges p = true /\
     d = Z.of_nat (length p) - 1 /\ In (last p 0) (s :: everything edges)) /\
  StronglySorted key_le queue /\
  ~ In t visited /\
  (In s visited \/ In (0, [s]) queue) /\
  (forall v c m, In v visited -> edge_in edges v c -> ~ In c visited -> walk edges s v m ->
     exists e p, In (e, p) queue /\ last p 0 = c /\ e <= Z.of_nat m + 1) /\
  incl visited (s :: everything edges).

(** What the loop returns: the empty sequence only when [t] is out of
    reach, otherwise a path from [s] to [t] with the fewest hops. *)
Definition dj_post (edges : list DirectedEdge) (s t : Z) (r : list Z) : Prop :=
  (r = [] /\ forall m, ~ walk edges s t m) \/
  (is_path edges s t r /\ forall m, walk edges s t m -> (length r <= Datatypes.S m)%nat).

Definition dj_measure (edges : list DirectedEdge) (s : Z) (st : list entry * list Z) : nat :=
  let '(queue, visited) := st in
  (unvisited (s :: everything edges) visited * (length edges + 1) + length queue)%nat.

(** Loop invariant of [maze] and [bfs] (module [SearchTs]) and its
    measure: the result is the visited set, and every vertex queued or
    visited is reachable from [start] along [children]. *)
Definition vis_inv (edges : list DirectedEdge) (start : Z)
    (st : list Z * list Z * list Z) : Prop :=
  let '(work, visited, result) := st in
  result = visited /\ NoDup visited /\
  (forall x, In x work \/ In x visited -> exists m, walk edges start x m) /\
  (forall v c, In v visited -> edge_in edges v c -> In c visited \/ In c work) /\
  (In start visited \/ In start work) /\
  (forall x, In x work \/ In x visited -> In x (start :: everything edges)).

Definition vis_measure (edges : list DirectedEdge) (start : Z)
    (st : list Z * list Z * list Z) : nat :=
  let '(work, visited, _) := st in
  (unvisited (start :: everything edges) visited * (length edges + 1) + length work)%nat.

(** Loop invariant of [dfs]: stack entries carry their hop count from
    [start], which exceeds [maxDepth] for no pushed entry. *)
Definition dfs_inv (edges : list DirectedEdge) (start maxDepth : Z)
    (st : list (Z * Z) * list Z * list Z) : Prop :=
  let '(stack, visited, result) := st in
  result = visited /\ NoDup visited /\
  (forall v d, In (v, d) stack ->
     0 <= d /\ (d = 0 \/ d <= maxDepth) /\ walk edges start v (Z.to_nat d) /\
     In v (start :: everything edges)) /\
  (forall v, In v visited ->
     exists m, walk edges start v m /\ (m = 0%nat \/ Z.of_nat m <= maxDepth)) /\
  incl visited (start :: everything edges).

Definition dfs_measure (edges : list DirectedEdge) (start : Z)
    (st : list (Z * Z) * list Z * list Z) : nat :=
  let '(stack, visited, _) := st in
  (unvisited (start :: everything edges) visited * (length edges + 1) + length stack)%nat.

(** Loop invariant of [SearchTs.shortestPath] and its measure: entries
    are paths from [s] ending at their [id], listed by non-decreasing
    length, with lengths at most one apart. *)
Definition path_len_le (a b : Z * list Z) : Prop := (length (snd a) <= length (snd b))%nat.

Definition sp_inv (edges : list DirectedEdge) (s t : Z)
    (st : list (Z * list Z) * list Z) : Prop :=
  let '(queue, visited) := st in
  (forall v p, In (v, p) queue ->
     hd_error p = Some s /\ chain edges p = true /\ last p 0 = v /\
     In v (s :: everything edges)) /\
  StronglySorted path_len_le queue /\
  (forall a b, In a queue -> In b queue -> (length (snd b) <= Datatypes.S (length (snd a)))%nat) /\
  ~ In t visited /\
  (In s visited \/ In (s, [s]) queue) /\
  (forall v c m, In v visited -> edge_in edges v c -> ~ In c visited -> walk edges s v m ->
     exists p, In (c, p) queue /\ (length p <= m + 2)%nat) /\
  incl visited (s :: everything edges).

Definition sp_measure (edges : list DirectedEdge) (s : Z)
    (st : list (Z * list Z) * list Z) : nat :=
  let '(queue, visited) := st in
  (unvisited (s :: everything edges) visited * (length edges + 1) + length queue)%nat.

(** Lock-step relation between the loops of [dfs] and [maze]: the same
    vertices in the same stack order, the same visited set and result, and
    every stacked depth at most the number of vertices visited so far. *)
Definition dfs_maze_rel (edges : list DirectedEdge) (start : Z)
    (sd : list (Z * Z) * list Z * list Z) (sm : list Z * list Z * list Z) : Prop :=
  let '(stack, vd, rd) := sd in
  let '(work, vm, rm) := sm in
  map fst stack = work /\ vd = vm /\ rd = rm /\
  (forall v d, In (v, d) stack -> d <= Z.of_nat (length vd)) /\
  vis_inv edges start sm.

(** ** Generic facts: loops *)

Section While.
Context {St R : Type} (body : St -> loop_step St R).

Lemma while_loop_inv (Inv : St -> Prop) (Post : R -> Prop) :
  (forall s s', Inv s -> body s = Continue s' -> Inv s') ->
  (forall s r, Inv s -> body s = Break r -> Post r) ->
  forall n s r, Inv s -> while_loop body n s = Some r -> Post r.
Proof.
  intros Hc Hb n; induction n as [|n IH]; intros s r Hs H; simpl in H; [discriminate|].
  destruct (body s) as [s'|r'] eqn:E.
  - eapply IH; [eapply Hc; eauto | exact H].
  - inversion H; subst; eauto.
Qed.

Lemma while_loop_terminates (Inv : St -> Prop) (mu : St -> nat) :
  (forall s s', Inv s -> body s = Continue s' -> Inv s') ->
  (forall s s', Inv s -> body s = Continue s' -> (mu s' < mu s)%nat) ->
  forall n s, Inv s -> (mu s < n)%nat -> exists r, while_loop body n s = Some r.
Proof.
  intros Hc Hm n; induction n as [|n IH]; intros s Hs Hlt; [lia|]. simpl.
  destruct (body s) as [s'|r'] eqn:E; [|eauto].
  apply IH; [eapply Hc; eauto|]. specialize (Hm _ _ Hs E). lia.
Qed.

Lemma while_loop_more_fuel n m s r :
  while_loop body n s = Some r -> (n <= m)%nat -> while_loop body m s = Some r.
Proof.
  revert m s; induction n as [|n IH]; intros m s H Hle; simpl in H; [discriminate|].
  destruct m as [|m]; [lia|]. simpl.
  destruct (body s); [apply IH; [exact H | lia] | exact H].
Qed.

End While.

Lemma fuel_SS edges :
  fuel edges = Datatypes.S (Datatypes.S ((2 * length edges + 2) * (length edges + 1))).
Proof. unfold fuel. lia. Qed.

(** ** Generic facts: JS sets *)

Lemma set_has_In x s : set_has x s = true <-> In x s.
Proof.
  unfold set_has. rewrite existsb_exists. split.
  - intros (y & Hy & E). apply Z.eqb_eq in E. subst. exact Hy.
  - intros H. exists x. split; [exact H | apply Z.eqb_refl].
Qed.

Lemma set_has_false x s : set_has x s = false <-> ~ In x s.
Proof.
  rewrite <- set_has_In. destruct (set_has x s); split; congruence.
Qed.

Lemma In_set_add y x s : In y (set_add x s) <-> y = x \/ In y s.
Proof.
  unfold set_add. destruct (set_has x s) eqn:E.
  - apply set_has_In in E. split; [auto|]. intros [->|H]; auto.
  - rewrite in_app_iff. simpl. split; intros [H|H]; auto; destruct H; auto; contradiction.
Qed.

Lemma incl_set_add x s : incl s (set_add x s).
Proof. intros y Hy. apply In_set_add. auto. Qed.

Lemma NoDup_set_add x s : NoDup s -> NoDup (set_add x s).
Proof.
  unfold set_add. destruct (set_has x s) eqn:E; intros H; [exact H|].
  apply set_has_false in E. apply NoDup_app; [exact H | constructor; [simpl; tauto | constructor] |].
  intros a Ha [<-|[]]. contradiction.
Qed.

Lemma length_set_add x s : (length (set_add x s) <= Datatypes.S (length s))%nat.
Proof.
  unfold set_add. destruct (set_has x s); [lia|]. rewrite length_app. simpl. lia.
Qed.

Lemma In_set_delete y x s : In y (set_delete x s) <-> In y s /\ y <> x.
Proof.
  unfold set_delete. rewrite filter_In, negb_true_iff, Z.eqb_neq. reflexivity.
Qed.

Lemma In_fold_set_add y l s :
  In y (fold_left (fun s x => set_add x s) l s) <-> In y s \/ In y l.
Proof.
  revert s; induction l as [|x l IH]; intros s; simpl; [tauto|].
  rewrite IH, In_set_add. split; intros H; intuition (subst; auto).
Qed.

Lemma In_set_of_list y l : In y (set_of_list l) <-> In y l.
Proof. unfold set_of_list. rewrite In_fold_set_add. simpl. tauto. Qed.

Lemma NoDup_set_of_list l : NoDup (set_of_list l).
Proof.
  unfold set_of_list.
  assert (H : forall s, NoDup s -> NoDup (fold_left (fun s x => set_add x s) l s)).
  { induction l as [|x l IH]; intros s Hs; simpl; [exact Hs|]. apply IH, NoDup_set_add, Hs. }
  apply H. constructor.
Qed.

Lemma length_set_of_list l : (length (set_of_list l) <= length l)%nat.
Proof.
  unfold set_of_list.
  assert (H : forall s, (length (fold_left (fun s x => set_add x s) l s) <= length s + length l)%nat).
  { induction l as [|x l IH]; intros s; simpl; [lia|].
    specialize (IH (set_add x s)). pose proof (length_set_add x s). lia. }
  specialize (H []). simpl in H. exact H.
Qed.

Lemma unvisited_mono U V V' : incl V V' -> (unvisited U V' <= unvisited U V)%nat.
Proof.
  intros Hi. unfold unvisited. induction U as [|x U IH]; simpl; [lia|].
  destruct (set_has x V') eqn:E'; destruct (set_has x V) eqn:E; simpl; try lia.
  apply set_has_In in E. apply set_has_false in E'. exfalso. apply E', Hi, E.
Qed.

Lemma unvisited_lt U V V' w :
  incl V V' -> In w U -> ~ In w V -> In w V' -> (unvisited U V' < unvisited U V)%nat.
Proof.
  intros Hi HU HV HV'. unfold unvisited. induction U as [|x U IH]; simpl; [contradiction|].
  pose proof (unvisited_mono U V V' Hi) as Hm. unfold unvisited in Hm.
  destruct HU as [<-|HU].
  - apply set_has_In in HV'. apply set_has_false in HV. rewrite HV, HV'. simpl. lia.
  - specialize (IH HU).
    destruct (set_has x V') eqn:E'; destruct (set_has x V) eqn:E; simpl; try lia.
    apply set_has_In in E. apply set_has_false in E'. exfalso. apply E', Hi, E.
Qed.

Lemma unvisited_le U V : (unvisited U V <= length U)%nat.
Proof. apply filter_length_le. Qed.

(** ** Graph index facts *)

Lemma In_parents v id edges : In v (parents id edges) <-> edge_in edges v id.
Proof.
  unfold parents, uniqueNumbers, edge_in. rewrite In_set_of_list, in_map_iff. split.
  - intros (e & <- & He). apply filter_In in He as [He Ht]. apply Z.eqb_eq in Ht.
    destruct e as [a b]; simpl in *; subst; exact He.
  - intros H. exists (mkEdge v id). split; [reflexivity|].
    apply filter_In. split; [exact H | apply Z.eqb_refl].
Qed.

Lemma In_children v id edges : In v (children id edges) <-> edge_in edges id v.
Proof.
  unfold children, uniqueNumbers, edge_in. rewrite In_set_of_list, in_map_iff. split.
  - intros (e & <- & He). apply filter_In in He as [He Ht]. apply Z.eqb_eq in Ht.
    destruct e as [a b]; simpl in *; subst; exact He.
  - intros H. exists (mkEdge id v). split; [reflexivity|].
    apply filter_In. split; [exact H | apply Z.eqb_refl].
Qed.

Lemma In_everything v edges :
  In v (everything edges) <-> exists e, In e edges /\ (v = source e \/ v = target e).
Proof.
  unfold everything, uniqueNumbers. rewrite In_set_of_list, in_flat_map. simpl.
  split; intros (e & He & H); exists e; split; auto; intuition auto.
Qed.

Lemma edge_in_everything_l edges x y : edge_in edges x y -> In x (everything edges).
Proof. intros H. apply In_everything. exists (mkEdge x y). simpl. auto. Qed.

Lemma edge_in_everything_r edges x y : edge_in edges x y -> In y (everything edges).
Proof. intros H. apply In_everything. exists (mkEdge x y). simpl. auto. Qed.

Lemma length_parents id edges : (length (parents id edges) <= length edges)%nat.
Proof.
  unfold parents, uniqueNumbers. etransitivity; [apply length_set_of_list|].
  rewrite length_map. apply filter_length_le.
Qed.

Lemma length_children id edges : (length (children id edges) <= length edges)%nat.
Proof.
  unfold children, uniqueNumbers. etransitivity; [apply length_set_of_list|].
  rewrite length_map. apply filter_length_le.
Qed.

Lemma length_everything edges : (length (everything edges) <= 2 * length edges)%nat.
Proof.
  unfold everything, uniqueNumbers. etransitivity; [apply length_set_of_list|].
  induction edges as [|e edges IH]; simpl; lia.
Qed.

Lemma NoDup_everything edges : NoDup (everything edges).
Proof. apply NoDup_set_of_list. Qed.

Lemma has_edge_spec edges x y : has_edge edges x y = true <-> edge_in edges x y.
Proof.
  unfold has_edge, edge_in. rewrite existsb_exists. split.
  - intros ([a b] & He & H). apply andb_true_iff in H as [H1 H2].
    apply Z.eqb_eq in H1, H2. simpl in *. subst. exact He.
  - intros H. exists (mkEdge x y). simpl. rewrite !Z.eqb_refl. auto.
Qed.

(** ** The worklist of [ancestors] / [descendants]

    Both functions run [worklist_body next] from the stack [rev (next id)]:
    [next] lists the predecessors of a vertex for a relation [R]
    ([parents]: [R x v] is the edge [(x, v)]; [children]: the edge [(v, x)]).
    The loop ends with exactly the [x] such that [tc R x id]. *)
Section Worklist.
Variable R : Z -> Z -> Prop.
Variable next : Z -> list Z.
Variable id : Z.
Variable U : list Z.
Variable B : nat.
Hypothesis next_spec : forall x v, In x (next v) <-> R x v.
Hypothesis next_U : forall x v, In x (next v) -> In x U.
Hypothesis next_len : forall v, (length (next v) <= B)%nat.

Local Abbreviation wl_inv := (wl_inv R next id U).
Local Abbreviation wl_measure := (wl_measure U B).

Lemma push_new_spec acc queue ps :
  push_new acc queue ps = rev (filter (fun p => negb (set_has p acc)) ps) ++ queue.
Proof.
  unfold push_new. revert queue; induction ps as [|p ps IH]; intros queue; simpl; [reflexivity|].
  rewrite IH. destruct (set_has p acc); simpl; [reflexivity|].
  rewrite <- app_assoc. reflexivity.
Qed.

Lemma In_pushed x acc y :
  In x (rev (filter (fun p => negb (set_has p acc)) (next y))) <-> R x y /\ ~ In x acc.
Proof.
  rewrite <- in_rev, filter_In, negb_true_iff, set_has_false, next_spec. reflexivity.
Qed.

Lemma wl_init : wl_inv (rev (next id), []).
Proof.
  simpl. repeat split.
  - intros x [H|[]]. rewrite <- in_rev, next_spec in H. apply tc_one, H.
  - intros x p [].
  - intros p H. right. rewrite <- in_rev. apply next_spec, H.
  - intros s1 x s2 p _ [].
  - intros x H. rewrite <- in_rev in H. eapply next_U, H.
  - intros x [].
  - constructor.
Qed.

Lemma wl_step st st' :
  wl_inv st -> worklist_body next st = Continue st' ->
  wl_inv st' /\ (wl_measure st' < wl_measure st)%nat.
Proof.
  destruct st as [queue acc]. simpl.
  destruct queue as [|y rest]; [discriminate|].
  intros (I1 & I2 & I3 & I4 & I5 & I6 & I7) H. injection H as <-.
  rewrite push_new_spec.
  set (acc' := set_add y acc).
  set (P := rev (filter (fun p => negb (set_has p acc')) (next y))).
  assert (HP : forall x, In x P <-> R x y /\ ~ In x acc') by (intros; apply In_pushed).
  assert (Hacc' : forall x, In x acc' <-> x = y \/ In x acc) by (intros; apply In_set_add).
  assert (Hy : tc R y id) by (apply I1; left; left; reflexivity).
  split.
  - simpl. repeat split.
    + intros x [Hx|Hx].
      * apply in_app_iff in Hx as [Hx|Hx].
        -- apply HP in Hx as [Hx _]. eapply tc_step; eauto.
        -- apply I1. left. right. exact Hx.
      * apply Hacc' in Hx as [->|Hx]; [exact Hy|]. apply I1. right. exact Hx.
    + intros x p Hx Hp.
      destruct (in_dec Z.eq_dec p acc') as [Hin|Hout]; [left; exact Hin|].
      right. apply in_app_iff.
      apply Hacc' in Hx as [->|Hx]; [left; apply HP; auto|].
      destruct (I2 x p Hx Hp) as [H1|[H1|H1]].
      * exfalso. apply Hout, Hacc'. auto.
      * exfalso. apply Hout, Hacc'. auto.
      * right. exact H1.
    + intros p Hp.
      destruct (I3 p Hp) as [H1|[H1|H1]].
      * left. apply Hacc'. auto.
      * left. apply Hacc'. auto.
      * right. apply in_app_iff. auto.
    + intros s1 x s2 p Heq Hx Hp.
      assert (Hrest : forall l, s1 = P ++ l -> rest = l ++ x :: s2 ->
                                In p acc' \/ In p s1).
      { intros l -> Hr.
        destruct (in_dec Z.eq_dec p acc') as [Hin|Hout]; [left; exact Hin|].
        right. apply in_app_iff.
        apply Hacc' in Hx as [->|Hx]; [left; apply HP; auto|].
        destruct (I4 (y :: l) x s2 p) as [H1|[H1|H1]]; auto.
        - simpl. rewrite Hr. reflexivity.
        - exfalso. apply Hout, Hacc'. auto.
        - exfalso. apply Hout, Hacc'. auto. }
      symmetry in Heq. apply app_eq_app in Heq as (l & [[H1 H2]|[H1 H2]]).
      * eapply Hrest; [exact H1 | exact H2].
      * destruct l as [|a l].
        -- rewrite app_nil_r in H1. simpl in H2.
           eapply Hrest with (l := []); [rewrite app_nil_r; symmetry; exact H1 | simpl; symmetry; exact H2].
        -- injection H2 as <- _. exfalso.
           assert (Hx' : In x P) by (rewrite H1; apply in_app_iff; right; left; reflexivity).
           apply HP in Hx' as [_ Hx']. contradiction.
    + intros x Hx. apply in_app_iff in Hx as [Hx|Hx].
      * apply HP in Hx as [Hx _]. eapply next_U, next_spec, Hx.
      * apply I5. right. exact Hx.
    + intros x Hx. apply Hacc' in Hx as [->|Hx]; [apply I5; left; reflexivity | apply I6, Hx].
    + apply NoDup_set_add, I7.
  - simpl. rewrite length_app.
    assert (HPlen : (length P <= B)%nat).
    { unfold P. rewrite length_rev. etransitivity; [apply filter_length_le | apply next_len]. }
    destruct (in_dec Z.eq_dec y acc) as [Hin|Hout].
    + (* a second copy of [y]: all its predecessors are already in [acc] *)
      assert (HP0 : P = []).
      { destruct P as [|a P'] eqn:EP; [reflexivity|]. exfalso.
        assert (Ha : In a (a :: P')) by (left; reflexivity).
        apply HP in Ha as [Ha Hna].
        destruct (I4 [] y rest a eq_refl Hin Ha) as [H1|[]].
        apply Hna, Hacc'. auto. }
      rewrite HP0. simpl.
      pose proof (unvisited_mono U acc acc' (incl_set_add y acc)). nia.
    + assert (Hlt : (unvisited U acc' < unvisited U acc)%nat).
      { apply unvisited_lt with y; [apply incl_set_add | apply I5; left; reflexivity
                                    | exact Hout | apply Hacc'; auto]. }
      assert (Hm : (unvisited U acc' * (B + 1) + (B + 1) <= unvisited U acc * (B + 1))%nat)
        by nia.
      simpl. lia.
Qed.

Lemma wl_break st r :
  wl_inv st -> worklist_body next st = Break r ->
  (forall v, In v r <-> tc R v id) /\ NoDup r /\ incl r U.
Proof.
  destruct st as [queue acc]. simpl.
  destruct queue as [|y rest]; [|discriminate].
  intros (I1 & I2 & I3 & I4 & I5 & I6 & I7) H. injection H as <-.
  split; [|split; assumption].
  intros v. split.
  - intros Hv. apply I1. right. exact Hv.
  - intros Hv. remember id as z eqn:Hz. revert Hz.
    induction Hv as [x y0 Hxy|x y0 z0 Hxy Hyz IH]; intros Hz; subst.
    + destruct (I3 x Hxy) as [H|[]]. exact H.
    + specialize (IH I1 I3 eq_refl). destruct (I2 y0 x IH Hxy) as [H|[]]. exact H.
Qed.

Theorem worklist_result n :
  (length U * (B + 1) + B < n)%nat ->
  exists r, while_loop (worklist_body next) n (rev (next id), []) = Some r /\
            (forall v, In v r <-> tc R v id) /\ NoDup r /\ incl r U.
Proof.
  intros Hn.
  destruct (while_loop_terminates (worklist_body next) wl_inv wl_measure
              (fun s s' H1 H2 => proj1 (wl_step s s' H1 H2))
              (fun s s' H1 H2 => proj2 (wl_step s s' H1 H2))
              n (rev (next id), []) wl_init) as [r Hr].
  - simpl. rewrite length_rev. pose proof (unvisited_le U []). pose proof (next_len id).
    assert (unvisited U [] * (B + 1) <= length U * (B + 1))%nat by nia. lia.
  - exists r. split; [exact Hr|].
    refine (while_loop_inv (worklist_body next) wl_inv
              (fun r => (forall v, In v r <-> tc R v id) /\ NoDup r /\ incl r U)
              _ _ n _ r wl_init Hr).
    + intros s s' H1 H2. apply (wl_step s s' H1 H2).
    + intros s r' H1 H2. eapply wl_break; eauto.
Qed.

End Worklist.

(** ** Reachability facts *)

Lemma tc_snoc (R : Z -> Z -> Prop) x y z : tc R x y -> R y z -> tc R x z.
Proof.
  intros H; revert z; induction H as [x y H|x y w H1 H2 IH]; intros z Hz.
  - eapply tc_step; [exact H | apply tc_one, Hz].
  - eapply tc_step; [exact H1 | apply IH, Hz].
Qed.

Lemma tc_flip (R : Z -> Z -> Prop) x y : tc (fun a b => R b a) x y -> tc R y x.
Proof.
  induction 1 as [x y H|x y z H1 H2 IH].
  - apply tc_one, H.
  - eapply tc_snoc; [exact IH | exact H1].
Qed.

Lemma tc_flip_iff (R : Z -> Z -> Prop) x y : tc (fun a b => R b a) x y <-> tc R y x.
Proof.
  split; [apply tc_flip|]. intros H. apply (tc_flip (fun a b => R b a)). exact H.
Qed.

Lemma fuel_bound edges :
  (length (everything edges) * (length edges + 1) + length edges < fuel edges)%nat.
Proof.
  pose proof (length_everything edges).
  assert (length (everything edges) * (length edges + 1)
          <= 2 * length edges * (length edges + 1))%nat by nia.
  unfold fuel. nia.
Qed.

Lemma ancestors_loop id edges n :
  (fuel edges <= n)%nat ->
  exists r, while_loop (worklist_body (fun v => parents v edges)) n
              (rev (parents id edges), []) = Some r /\
            (forall v, In v r <-> tc (edge_in edges) v id) /\
            NoDup r /\ incl r (everything edges).
Proof.
  intros Hn. apply (worklist_result (edge_in edges) (fun v => parents v edges) id
                      (everything edges) (length edges)).
  - intros x v. apply In_parents.
  - intros x v H. apply In_parents in H. eapply edge_in_everything_l, H.
  - intros v. apply length_parents.
  - pose proof (fuel_bound edges). lia.
Qed.

Lemma descendants_loop id edges n :
  (fuel edges <= n)%nat ->
  exists r, while_loop (worklist_body (fun v => children v edges)) n
              (rev (children id edges), []) = Some r /\
            (forall v, In v r <-> tc (edge_in edges) id v) /\
            NoDup r /\ incl r (everything edges).
Proof.
  intros Hn.
  destruct (worklist_result (fun x v => edge_in edges v x) (fun v => children v edges) id
              (everything edges) (length edges) ltac:(intros; apply In_children)
              ltac:(intros x v H; apply In_children in H; eapply edge_in_everything_r, H)
              ltac:(intros; apply length_children) n)
    as (r & Hr & Hin & Hnd & Hincl).
  - pose proof (fuel_bound edges). lia.
  - exists r. split; [exact Hr|]. split; [|auto].
    intros v. rewrite Hin. apply (tc_flip_iff (edge_in edges)).
Qed.

Lemma ancestors_spec id edges v :
  In v (ancestors id edges) <-> tc (edge_in edges) v id.
Proof.
  destruct (ancestors_loop id edges (fuel edges) (le_n _)) as (r & Hr & Hin & _).
  unfold ancestors, ancestors_run. rewrite Hr. apply Hin.
Qed.

Lemma descendants_spec id edges v :
  In v (descendants id edges) <-> tc (edge_in edges) id v.
Proof.
  destruct (descendants_loop id edges (fuel edges) (le_n _)) as (r & Hr & Hin & _).
  unfold descendants, descendants_run. rewrite Hr. apply Hin.
Qed.

Lemma ancestors_run_some id edges : ancestors_run id edges = Some (ancestors id edges).
Proof.
  destruct (ancestors_loop id edges (fuel edges) (le_n _)) as (r & Hr & _).
  unfold ancestors, ancestors_run in *. rewrite Hr. reflexivity.
Qed.

Lemma descendants_run_some id edges : descendants_run id edges = Some (descendants id edges).
Proof.
  destruct (descendants_loop id edges (fuel edges) (le_n _)) as (r & Hr & _).
  unfold descendants, descendants_run in *. rewrite Hr. reflexivity.
Qed.

(** Claim C4: for every vertex [id] and every finite edge list (cycles,
    self-loops and duplicate edges included) the worklist loops of
    [ancestors] and [descendants] terminate: from a fuel bound quadratic in
    the number of edges on, every run of the loop leaves it with one and the
    same finite, duplicate-free result made of vertices of the graph. *)
Theorem ancestors_descendants_terminate (id : Z) (edges : list DirectedEdge) :
  (exists r, (forall n, (fuel edges <= n)%nat ->
                 while_loop (worklist_body (fun v => parents v edges)) n
                   (rev (parents id edges), []) = Some r) /\
             ancestors id edges = r /\ NoDup r /\ incl r (everything edges)) /\
  (exists r, (forall n, (fuel edges <= n)%nat ->
                 while_loop (worklist_body (fun v => children v edges)) n
                   (rev (children id edges), []) = Some r) /\
             descendants id edges = r /\ NoDup r /\ incl r (everything edges)).
Proof.
  split.
  - destruct (ancestors_loop id edges (fuel edges) (le_n _)) as (r & Hr & _ & Hnd & Hincl).
    exists r. split; [|split; [|auto]].
    + intros n Hn. eapply while_loop_more_fuel; [exact Hr | exact Hn].
    + unfold ancestors, ancestors_run. rewrite Hr. reflexivity.
  - destruct (descendants_loop id edges (fuel edges) (le_n _)) as (r & Hr & _ & Hnd & Hincl).
    exists r. split; [|split; [|auto]].
    + intros n Hn. eapply while_loop_more_fuel; [exact Hr | exact Hn].
    + unfold descendants, descendants_run. rewrite Hr. reflexivity.
Qed.

(** Instance of C4 on the self-loop [(1, 1)]: the worklist stops with
    [[1]] once given [fuel] iterations. *)
Lemma ancestors_descendants_terminate_witness :
  (fuel [mkEdge 1 1] <= fuel [mkEdge 1 1])%nat /\
  while_loop (worklist_body (fun v => parents v [mkEdge 1 1])) (fuel [mkEdge 1 1])
    (rev (parents 1 [mkEdge 1 1]), []) = Some (ancestors 1 [mkEdge 1 1]) /\
  ancestors 1 [mkEdge 1 1] = [1].
Proof.
  destruct (ancestors_descendants_terminate 1 [mkEdge 1 1]) as [(r & Hr & Har & _) _].
  split; [lia|]. split; [rewrite Har; apply Hr; lia | vm_compute; reflexivity].
Defined.

Lemma In_related v id edges :
  In v (related id edges) <-> In v (ancestors id edges) \/ In v (descendants id edges).
Proof. unfold related, uniqueNumbers. rewrite In_set_of_list, in_app_iff. reflexivity. Qed.

Lemma In_siblings v id edges :
  In v (siblings id edges) <->
  v <> id /\ exists p, edge_in edges p id /\ edge_in edges p v.
Proof.
  unfold siblings, uniqueNumbers. rewrite In_set_of_list, filter_In, in_flat_map.
  rewrite negb_true_iff, Z.eqb_neq. split.
  - intros ((p & Hp & Hv) & Hne). split; [exact Hne|]. exists p.
    split; [apply In_parents, Hp | apply In_children, Hv].
  - intros (Hne & p & Hp & Hv). split; [|exact Hne]. exists p.
    split; [apply In_parents, Hp | apply In_children, Hv].
Qed.

Lemma In_cousins v id edges :
  In v (cousins id edges) <->
  exists s, In s (siblings id edges) /\ tc (edge_in edges) s v.
Proof.
  unfold cousins, uniqueNumbers. rewrite In_set_of_list, in_flat_map.
  split; intros (s & H1 & H2); exists s; split; auto; apply descendants_spec; exact H2.
Qed.

(** Claim C6 (as amended): [siblings v E] never contains [v]; [ancestors v E],
    [descendants v E] and [related v E] contain [v] exactly when [v] lies on
    a directed cycle (a non-empty directed path from [v] back to [v]); and
    [cousins v E] contains [v] exactly when [v] is a descendant of one of its
    own siblings. *)
Theorem relationship_sets_self (v : Z) (edges : list DirectedEdge) :
  ~ In v (siblings v edges) /\
  (In v (ancestors v edges) <-> tc (edge_in edges) v v) /\
  (In v (descendants v edges) <-> tc (edge_in edges) v v) /\
  (In v (related v edges) <-> tc (edge_in edges) v v) /\
  (In v (cousins v edges) <-> exists s, In s (siblings v edges) /\ tc (edge_in edges) s v).
Proof.
  split; [|split; [|split; [|split]]].
  - intros H. apply In_siblings in H as [H _]. apply H. reflexivity.
  - apply ancestors_spec.
  - apply descendants_spec.
  - rewrite In_related, ancestors_spec, descendants_spec. tauto.
  - apply In_cousins.
Qed.

(** Counterexample to claim C6 as stated: with the self-loop [(1, 1)] the
    vertex 1 lies on a cycle and [ancestors 1 E] (likewise [descendants] and
    [related]) contains 1; and [cousins 1 E] contains 1 for the acyclic
    [E = [(0,1); (0,2); (2,1)]]. *)
Lemma relationship_sets_self_counterexample :
  In 1 (ancestors 1 [mkEdge 1 1]) /\ In 1 (descendants 1 [mkEdge 1 1]) /\
  In 1 (related 1 [mkEdge 1 1]) /\
  In 1 (cousins 1 [mkEdge 0 1; mkEdge 0 2; mkEdge 2 1]).
Proof. vm_compute. repeat split; left; reflexivity. Qed.

Lemma filter_all_false {A : Type} (f : A -> bool) (l : list A) :
  (forall x, In x l -> f x = false) -> filter f l = [].
Proof.
  induction l as [|x l IH]; intros H; simpl; [reflexivity|].
  rewrite (H x (or_introl eq_refl)). apply IH. intros y Hy. apply H. right. exact Hy.
Qed.

Lemma related_nonempty id edges :
  In id (everything edges) -> related id edges <> [].
Proof.
  intros H Hnil. apply In_everything in H as ([s t] & He & [Hs|Ht]); simpl in *; subst.
  - assert (Hin : In t (related s edges)).
    { apply In_related. right. apply descendants_spec, tc_one. exact He. }
    rewrite Hnil in Hin. exact Hin.
  - assert (Hin : In s (related t edges)).
    { apply In_related. left. apply ancestors_spec, tc_one. exact He. }
    rewrite Hnil in Hin. exact Hin.
Qed.

(** Claim C10: [isolatedNodes E] is empty for every edge list [E]: each
    vertex of [everything E] is an endpoint of an edge, so it has an ancestor
    or a descendant and its [related] set is non-empty. *)
Theorem isolatedNodes_empty (edges : list DirectedEdge) : isolatedNodes edges = [].
Proof.
  unfold isolatedNodes. rewrite filter_all_false; [reflexivity|].
  intros id Hid. apply Nat.eqb_neq. intros Hlen.
  apply (related_nonempty id edges Hid). apply length_zero_iff_nil, Hlen.
Qed.

(** ** The fixed-point sweep of [traverse] *)

Lemma while_loop_ext {St R : Type} (b1 b2 : St -> loop_step St R) n s :
  (forall s, b1 s = b2 s) -> while_loop b1 n s = while_loop b2 n s.
Proof.
  intros H. revert s; induction n as [|n IH]; intros s; simpl; [reflexivity|].
  rewrite H. destruct (b2 s); [apply IH | reflexivity].
Qed.

Lemma tc_iff_ext (R1 R2 : Z -> Z -> Prop) x y :
  (forall a b, R1 a b <-> R2 a b) -> tc R1 x y <-> tc R2 x y.
Proof.
  intros H. split; induction 1.
  - apply tc_one, H; assumption.
  - eapply tc_step; [apply H; eassumption | assumption].
  - apply tc_one, H; assumption.
  - eapply tc_step; [apply H; eassumption | assumption].
Qed.

Lemma edge_in_flip edges x y : edge_in (flip_edges edges) x y <-> edge_in edges y x.
Proof.
  unfold edge_in, flip_edges. rewrite in_map_iff. split.
  - intros ([a b] & Heq & He). simpl in Heq. injection Heq as -> ->. exact He.
  - intros H. exists (mkEdge y x). split; [reflexivity | exact H].
Qed.

Lemma sweep_edge_ancestors visited running e :
  sweep_edge Ancestors (visited, running) e =
  if negb (set_has (source e) visited) && set_has (target e) visited
  then (set_add (source e) visited, true) else (visited, running).
Proof.
  unfold sweep_edge. simpl.
  destruct (negb (set_has (source e) visited) && set_has (target e) visited); reflexivity.
Qed.

Lemma sweep_edge_descendants st e :
  sweep_edge Descendants st e = sweep_edge Ancestors st (mkEdge (target e) (source e)).
Proof.
  destruct st as [visited running]. rewrite sweep_edge_ancestors. unfold sweep_edge. simpl.
  reflexivity.
Qed.

Lemma traverse_run_descendants id edges :
  traverse_run id edges Descendants = traverse_run id (flip_edges edges) Ancestors.
Proof.
  unfold traverse_run. replace (fuel (flip_edges edges)) with (fuel edges)
    by (unfold fuel, flip_edges; rewrite length_map; reflexivity).
  apply while_loop_ext. intros visited. unfold traverse_body, flip_edges.
  replace (fold_left (sweep_edge Descendants) edges (visited, false))
    with (fold_left (sweep_edge Ancestors) (map (fun e => mkEdge (target e) (source e)) edges)
            (visited, false)); [reflexivity|].
  generalize (visited, false). induction edges as [|e edges IH]; intros st; simpl;
    [reflexivity|]. rewrite sweep_edge_descendants. apply IH.
Qed.

Section Sweep.
Variable edges : list DirectedEdge.

Lemma sweep_true l V :
  snd (fold_left (sweep_edge Ancestors) l (V, true)) = true.
Proof.
  revert V; induction l as [|e l IH]; intros V; cbn [fold_left]; [reflexivity|].
  rewrite sweep_edge_ancestors.
  destruct (negb (set_has (source e) V) && set_has (target e) V); apply IH.
Qed.

(** A predicate closed under predecessors stays true of the visited set. *)
Lemma sweep_closed (P : Z -> Prop) l V b V' b' :
  incl l edges ->
  (forall x y, edge_in edges x y -> P y -> P x) ->
  (forall x, In x V -> P x) ->
  fold_left (sweep_edge Ancestors) l (V, b) = (V', b') ->
  incl V V' /\ (forall x, In x V' -> P x).
Proof.
  intros Hl HP. revert V b; induction l as [|[s t] l IH]; intros V b HV H; cbn [fold_left] in H.
  - injection H as <- <-. split; [apply incl_refl | exact HV].
  - rewrite sweep_edge_ancestors in H. cbn [source target] in H.
    assert (Hl' : incl l edges) by (intros x Hx; apply Hl; right; exact Hx).
    destruct (negb (set_has s V) && set_has t V) eqn:E.
    + apply andb_true_iff in E as [_ Et]. apply set_has_In in Et.
      assert (HV' : forall x, In x (set_add s V) -> P x).
      { intros x Hx. apply In_set_add in Hx as [Hx|Hx].
        - subst x. apply (HP s t); [apply Hl; left; reflexivity | apply HV, Et].
        - apply HV, Hx. }
      destruct (IH Hl' _ _ HV' H) as [Hi Hv].
      split; [|exact Hv]. intros x Hx. apply Hi, In_set_add. auto.
    + eapply IH; eauto.
Qed.

Lemma sweep_unchanged l V b V' :
  fold_left (sweep_edge Ancestors) l (V, b) = (V', false) ->
  b = false /\ V' = V /\ forall e, In e l -> In (target e) V -> In (source e) V.
Proof.
  revert V b; induction l as [|e l IH]; intros V b H; cbn [fold_left] in H.
  - injection H as <- ->. split; [reflexivity|]. split; [reflexivity|]. intros e [].
  - rewrite sweep_edge_ancestors in H.
    destruct (negb (set_has (source e) V) && set_has (target e) V) eqn:E.
    + pose proof (sweep_true l (set_add (source e) V)) as Ht. rewrite H in Ht. discriminate.
    + destruct (IH V b H) as (-> & -> & Hc). split; [reflexivity|]. split; [reflexivity|].
      intros e' [<-|He'] Ht; [|apply Hc; assumption].
      apply set_has_In in Ht. rewrite Ht, andb_true_r, negb_false_iff in E.
      apply set_has_In, E.
Qed.

Lemma sweep_incl l V b V' b' :
  fold_left (sweep_edge Ancestors) l (V, b) = (V', b') -> incl V V'.
Proof.
  revert V b; induction l as [|e l IH]; intros V b H; cbn [fold_left] in H.
  - injection H as <- _. apply incl_refl.
  - rewrite sweep_edge_ancestors in H.
    destruct (negb (set_has (source e) V) && set_has (target e) V).
    + intros x Hx. apply (IH _ _ H). apply In_set_add. auto.
    + exact (IH _ _ H).
Qed.

Lemma sweep_added l V b V' :
  fold_left (sweep_edge Ancestors) l (V, b) = (V', true) -> b = false ->
  exists w, In w (map source l) /\ ~ In w V /\ In w V'.
Proof.
  revert V b; induction l as [|e l IH]; intros V b H Hb; cbn [fold_left] in H.
  - injection H as _ Hbt. congruence.
  - rewrite sweep_edge_ancestors in H.
    destruct (negb (set_has (source e) V) && set_has (target e) V) eqn:E.
    + apply andb_true_iff in E as [Es _]. apply negb_true_iff, set_has_false in Es.
      exists (source e). split; [left; reflexivity|]. split; [exact Es|].
      apply (sweep_incl l _ _ _ _ H). apply In_set_add. auto.
    + destruct (IH V b H Hb) as (w & Hw & Hn & Hw'). exists w. split; [right; exact Hw | auto].
Qed.

Lemma traverse_ancestors_loop id n :
  (fuel edges <= n)%nat ->
  exists V, while_loop (traverse_body Ancestors edges) n [id] = Some V /\
            forall v, In v V <-> v = id \/ tc (edge_in edges) v id.
Proof.
  intros Hn.
  set (U := id :: everything edges).
  set (Inv := fun V => In id V /\ (forall x, In x V -> x = id \/ tc (edge_in edges) x id)
                       /\ incl V U).
  assert (Hstep : forall V V', Inv V -> traverse_body Ancestors edges V = Continue V' ->
                               Inv V' /\ (unvisited U V' < unvisited U V)%nat).
  { intros V V' (H1 & H2 & H3) H. unfold traverse_body in H.
    destruct (fold_left (sweep_edge Ancestors) edges (V, false)) as [W r] eqn:Ef.
    destruct r; [injection H as <-|discriminate].
    destruct (sweep_closed (fun x => x = id \/ tc (edge_in edges) x id) edges V false W true
                (incl_refl _)) as [Hi Hs]; [| exact H2 | exact Ef |].
    { intros x y Hxy [->|Hy]; right; [apply tc_one, Hxy | eapply tc_step; eauto]. }
    destruct (sweep_closed (fun x => In x U) edges V false W true (incl_refl _))
      as [_ HU]; [| exact H3 | exact Ef |].
    { intros x y Hxy _. right. eapply edge_in_everything_l, Hxy. }
    split; [split; [apply Hi, H1 | split; [exact Hs | exact HU]]|].
    destruct (sweep_added edges V false W Ef eq_refl) as (w & Hw & Hnw & Hw').
    apply unvisited_lt with w; [exact Hi| |exact Hnw|exact Hw'].
    right. apply in_map_iff in Hw as ([a b] & <- & He). apply In_everything.
    exists (mkEdge a b). simpl. auto. }
  assert (Hinit : Inv [id]).
  { split; [left; reflexivity|]. split; [intros x [<-|[]]; left; reflexivity|].
    intros x [<-|[]]. left. reflexivity. }
  destruct (while_loop_terminates (traverse_body Ancestors edges) Inv (unvisited U)
              (fun s s' H1 H2 => proj1 (Hstep s s' H1 H2))
              (fun s s' H1 H2 => proj2 (Hstep s s' H1 H2)) n [id] Hinit) as [V HV].
  { pose proof (unvisited_le U [id]). pose proof (length_everything edges).
    unfold U in *. simpl in *. unfold fuel in Hn. nia. }
  exists V. split; [exact HV|].
  refine (while_loop_inv (traverse_body Ancestors edges) Inv
            (fun V => forall v, In v V <-> v = id \/ tc (edge_in edges) v id)
            (fun s s' H1 H2 => proj1 (Hstep s s' H1 H2)) _ n [id] V Hinit HV).
  intros W r (H1 & H2 & H3) H. unfold traverse_body in H.
  destruct (fold_left (sweep_edge Ancestors) edges (W, false)) as [W' b] eqn:Ef.
  destruct b; [discriminate|]. injection H as <-.
  destruct (sweep_unchanged edges W false W' Ef) as (_ & -> & Hc).
  intros v. split; [apply H2|].
  intros [->|Hv]; [exact H1|].
  remember id as z eqn:Hz. revert Hz.
  induction Hv as [x y Hxy|x y z0 Hxy Hyz IH]; intros Hz.
  - subst. apply (Hc (mkEdge _ _) Hxy). exact H1.
  - subst. apply (Hc (mkEdge _ _) Hxy). apply IH; auto.
Qed.

End Sweep.

Lemma traverse_ancestors_spec id edges v :
  In v (traverse id edges Ancestors) <-> v <> id /\ tc (edge_in edges) v id.
Proof.
  destruct (traverse_ancestors_loop edges id (fuel edges) (le_n _)) as (V & HV & Hin).
  unfold traverse, traverse_sweep, traverse_run. rewrite HV, In_set_delete, Hin.
  split; [intros [[H|H] Hne]; [contradiction | auto] | intros [Hne H]; auto].
Qed.

Lemma traverse_descendants_spec id edges v :
  In v (traverse id edges Descendants) <-> v <> id /\ tc (edge_in edges) id v.
Proof.
  destruct (traverse_ancestors_loop (flip_edges edges) id (fuel (flip_edges edges)) (le_n _))
    as (V & HV & Hin).
  unfold traverse, traverse_sweep. rewrite traverse_run_descendants.
  unfold traverse_run. rewrite HV, In_set_delete, Hin.
  rewrite (tc_iff_ext (edge_in (flip_edges edges)) (fun a b => edge_in edges b a))
    by (intros; apply edge_in_flip).
  rewrite (tc_flip_iff (edge_in edges)).
  split; [intros [[H|H] Hne]; [contradiction | auto] | intros [Hne H]; auto].
Qed.

(** Claim C2 (as amended): the fixed-point sweep and the worklist agree up
    to the start vertex: for every [id], [E] and [v], [v] is in
    [traverse id E "ancestors"] iff [v] is in [ancestors id E] and [v <> id],
    and [v] is in [traverse id E "descendants"] iff [v] is in
    [descendants id E] and [v <> id] (the worklist keeps [id] when it lies on
    a cycle, the sweep always deletes it). *)
Theorem traverse_agrees_with_worklist (id : Z) (edges : list DirectedEdge) (v : Z) :
  (In v (traverse id edges Ancestors) <-> In v (ancestors id edges) /\ v <> id) /\
  (In v (traverse id edges Descendants) <-> In v (descendants id edges) /\ v <> id).
Proof.
  rewrite traverse_ancestors_spec, traverse_descendants_spec, ancestors_spec,
    descendants_spec. tauto.
Qed.

(** Counterexample to claim C2 as stated: on the self-loop [(1, 1)] the
    worklist gives [ancestors 1 E = [1]] and [descendants 1 E = [1]] while
    the sweep gives the empty set in both modes. *)
Lemma traverse_worklist_counterexample :
  traverse 1 [mkEdge 1 1] Ancestors = [] /\ ancestors 1 [mkEdge 1 1] = [1] /\
  traverse 1 [mkEdge 1 1] Descendants = [] /\ descendants 1 [mkEdge 1 1] = [1].
Proof. vm_compute. repeat split. Qed.

(** Claim C5 (as amended): for the modes ["ancestors"], ["descendants"] and
    ["web"] the set [traverse id E mode] never contains [id]; for ["tree"]
    it always contains [id] (the union of both sweeps and [id] itself). *)
Theorem traverse_excludes_id (id : Z) (edges : list DirectedEdge) (mode : Traversal) :
  (mode <> Tree -> ~ In id (traverse id edges mode)) /\ In id (traverse id edges Tree).
Proof.
  split.
  - intros Hm H. destruct mode; [| | | contradiction];
      unfold traverse, traverse_sweep in H; apply In_set_delete in H as [_ H]; apply H; reflexivity.
  - unfold traverse. apply In_set_of_list. left. reflexivity.
Qed.

(** Counterexample to claim C5 as stated: [traverse 1 [] "tree"] is [[1]]. *)
Lemma traverse_tree_counterexample : traverse 1 [] Tree = [1].
Proof. reflexivity. Qed.

(** Instance of C5 (amended) at [id = 1], [E = [(1,2)]], mode ["web"]. *)
Lemma traverse_excludes_id_witness :
  Web <> Tree /\ ~ In 1 (traverse 1 [mkEdge 1 2] Web) /\ In 1 (traverse 1 [mkEdge 1 2] Tree).
Proof.
  split; [discriminate|].
  destruct (traverse_excludes_id 1 [mkEdge 1 2] Web) as [H1 H2].
  split; [apply H1; discriminate | exact H2].
Defined.

(** ** The priority queue *)

Lemma insert_by_distance_perm e q : Permutation (insert_by_distance e q) (e :: q).
Proof.
  induction q as [|f q IH]; simpl; [reflexivity|].
  destruct (fst e - fst f <? 0); [reflexivity|].
  eapply perm_trans; [apply perm_skip, IH | apply perm_swap].
Qed.

Lemma sort_by_distance_perm q : Permutation (sort_by_distance q) q.
Proof.
  unfold sort_by_distance.
  assert (H : forall acc, Permutation (fold_left (fun acc e => insert_by_distance e acc) q acc)
                                      (q ++ acc)).
  { induction q as [|e q IH]; intros acc; simpl; [reflexivity|].
    eapply perm_trans; [apply IH|].
    eapply perm_trans; [apply Permutation_app_head, insert_by_distance_perm|].
    apply Permutation_sym, Permutation_middle. }
  specialize (H []). rewrite app_nil_r in H. exact H.
Qed.

Lemma insert_by_distance_sorted e q :
  StronglySorted key_le q -> StronglySorted key_le (insert_by_distance e q).
Proof.
  induction q as [|f q IH]; intros Hs; simpl.
  - constructor; constructor.
  - apply StronglySorted_inv in Hs as [Hq Hf]. destruct (fst e - fst f <? 0) eqn:E.
    + apply Z.ltb_lt in E. constructor; [constructor; assumption|].
      constructor; [unfold key_le; lia|].
      eapply Forall_impl; [|exact Hf]. intros a Ha. unfold key_le in *. lia.
    + apply Z.ltb_ge in E. constructor; [apply IH, Hq|].
      apply Forall_forall. intros a Ha.
      apply (Permutation_in _ (insert_by_distance_perm e q)) in Ha.
      destruct Ha as [<-|Ha]; [unfold key_le; lia|].
      rewrite Forall_forall in Hf. apply Hf, Ha.
Qed.

Lemma sort_by_distance_sorted q : StronglySorted key_le (sort_by_distance q).
Proof.
  unfold sort_by_distance.
  assert (H : forall acc, StronglySorted key_le acc ->
    StronglySorted key_le (fold_left (fun acc e => insert_by_distance e acc) q acc)).
  { induction q as [|e q IH]; intros acc Hacc; simpl; [exact Hacc|].
    apply IH, insert_by_distance_sorted, Hacc. }
  apply H. constructor.
Qed.

Lemma enqueue_fold_perm (g : Z -> entry) cs q :
  Permutation (fold_left (fun q c => enqueue (g c) q) cs q) (q ++ map g cs).
Proof.
  revert q; induction cs as [|c cs IH]; intros q; simpl; [rewrite app_nil_r; reflexivity|].
  eapply perm_trans; [apply IH|]. unfold enqueue.
  eapply perm_trans; [apply Permutation_app_tail, sort_by_distance_perm|].
  rewrite <- app_assoc. reflexivity.
Qed.

Lemma enqueue_fold_sorted (g : Z -> entry) cs q :
  StronglySorted key_le q -> StronglySorted key_le (fold_left (fun q c => enqueue (g c) q) cs q).
Proof.
  revert q; induction cs as [|c cs IH]; intros q H; simpl; [exact H|].
  apply IH. unfold enqueue. apply sort_by_distance_sorted.
Qed.

(** ** Paths and walks *)

Lemma chain_snoc edges p c :
  p <> [] -> chain edges p = true -> edge_in edges (last p 0) c ->
  chain edges (p ++ [c]) = true.
Proof.
  induction p as [|a p IH]; intros Hne Hc He; [contradiction|].
  destruct p as [|b p].
  - simpl. rewrite andb_true_r. apply has_edge_spec, He.
  - simpl in Hc. apply andb_true_iff in Hc as [H1 H2].
    simpl. rewrite H1. simpl. apply IH; [discriminate | exact H2 | exact He].
Qed.

Lemma chain_walk edges s x tl m :
  walk edges s x m -> chain edges (x :: tl) = true ->
  walk edges s (last (x :: tl) 0) (m + length tl).
Proof.
  revert x m; induction tl as [|y tl IH]; intros x m Hw Hc.
  - simpl. rewrite Nat.add_0_r. exact Hw.
  - simpl in Hc. apply andb_true_iff in Hc as [H1 H2]. apply has_edge_spec in H1.
    replace (m + length (y :: tl))%nat with (Datatypes.S m + length tl)%nat by (simpl; lia).
    change (last (x :: y :: tl) 0) with (last (y :: tl) 0).
    apply IH; [apply walk_step with x; assumption | exact H2].
Qed.

Lemma path_walk edges s t q : is_path edges s t q -> walk edges s t (length q - 1).
Proof.
  destruct q as [|x tl]; intros (Hh & Hl & Hc); [discriminate|].
  injection Hh as ->. rewrite <- Hl.
  replace (length (s :: tl) - 1)%nat with (0 + length tl)%nat by (simpl; lia).
  apply chain_walk; [constructor | exact Hc].
Qed.

(** ** The loop of [dijkstraShortestPath] *)

Section Dijkstra.
Variable edges : list DirectedEdge.
Variables s t : Z.

Local Abbreviation inv := (dj_inv edges s t).
Local Abbreviation measure := (dj_measure edges s).

(** Every vertex not yet visited that is [m] hops from [s] has a queue
    entry of distance at most [m]. *)
Lemma dj_reach queue visited v m :
  inv (queue, visited) -> walk edges s v m -> ~ In v visited ->
  exists e p, In (e, p) queue /\ e <= Z.of_nat m.
Proof.
  intros (D1 & D2 & D3 & D4 & D5 & D6) Hw.
  induction Hw as [|u v m Hw IH Huv]; intros Hv.
  - destruct D4 as [H|H]; [contradiction|]. exists 0, [s]. split; [exact H | lia].
  - destruct (in_dec Z.eq_dec u visited) as [Hu|Hu].
    + destruct (D5 u v m Hu Huv Hv Hw) as (e & p & He & _ & Hle).
      exists e, p. split; [exact He | lia].
    + destruct (IH Hu) as (e & p & He & Hle). exists e, p. split; [exact He | lia].
Qed.

Lemma head_min d p rest e p' :
  StronglySorted key_le ((d, p) :: rest) -> In (e, p') ((d, p) :: rest) -> d <= e.
Proof.
  intros Hs [H|H]; [injection H as -> ->; lia|].
  apply StronglySorted_inv in Hs as [_ Hf]. rewrite Forall_forall in Hf.
  apply (Hf _ H).
Qed.

(** The popped entry's distance is the least number of hops to its vertex. *)
Lemma dj_head_minimal d p rest visited m :
  inv ((d, p) :: rest, visited) -> ~ In (last p 0) visited ->
  walk edges s (last p 0) m -> d <= Z.of_nat m.
Proof.
  intros Hinv Hn Hw.
  destruct (dj_reach _ _ _ _ Hinv Hw Hn) as (e & p' & He & Hle).
  destruct Hinv as (_ & D2 & _).
  pose proof (head_min d p rest e p' D2 He). lia.
Qed.

Lemma dj_init : inv (enqueue (0, [s]) [], []).
Proof.
  simpl. split; [|split; [|split; [|split; [|split]]]].
  - intros d p [H|[]]. injection H as <- <-. simpl. auto.
  - constructor; constructor.
  - intros [].
  - right. left. reflexivity.
  - intros v c m [].
  - intros x [].
Qed.

Lemma dj_step st st' :
  inv st -> dijkstra_body t edges st = Continue st' ->
  inv st' /\ (measure st' < measure st)%nat.
Proof.
  destruct st as [queue visited].
  intros Hinv H. pose proof Hinv as (D1 & D2 & D3 & D4 & D5 & D6).
  destruct queue as [|[d p] rest]; simpl in H; [discriminate|].
  set (current := last p 0) in *.
  destruct (Z.eqb current t) eqn:Et; [discriminate|].
  apply Z.eqb_neq in Et.
  destruct (D1 d p (or_introl eq_refl)) as (Hh & Hc & Hd & HU).
  destruct (set_has current visited) eqn:Ev.
  - (* already visited: the entry is dropped *)
    injection H as <-. apply set_has_In in Ev.
    split; [|simpl; lia].
    simpl. split; [|split; [|split; [|split; [|split]]]].
    + intros d' p' H. apply D1. right. exact H.
    + apply StronglySorted_inv in D2 as [D2 _]. exact D2.
    + exact D3.
    + destruct D4 as [H|[H|H]]; [left; exact H| |right; exact H].
      injection H as _ Hp. left. unfold current in Ev. rewrite Hp in Ev. exact Ev.
    + intros v c m Hv Hvc Hc' Hw.
      destruct (D5 v c m Hv Hvc Hc' Hw) as (e & p' & [He|He] & Hl & Hle).
      * injection He as <- <-. exfalso. apply Hc'. rewrite <- Hl. exact Ev.
      * exists e, p'. auto.
    + exact D6.
  - (* first visit of [current] *)
    injection H as <-. apply set_has_false in Ev.
    set (g := fun child => (d + 1, p ++ [child])).
    set (cs := children current edges).
    change (fun q child => enqueue (d + 1, p ++ [child]) q)
      with (fun q child => enqueue (g child) q).
    set (Q := fold_left (fun q child => enqueue (g child) q) cs rest).
    assert (HQ : forall x, In x Q <-> In x rest \/ exists c, In c cs /\ x = g c).
    { intros x. unfold Q. split.
      - intros Hx. apply (Permutation_in _ (enqueue_fold_perm g cs rest)) in Hx.
        apply in_app_iff in Hx as [Hx|Hx]; [left; exact Hx|].
        apply in_map_iff in Hx as (c & <- & Hc'). right. exists c. auto.
      - intros Hx. apply (Permutation_in _ (Permutation_sym (enqueue_fold_perm g cs rest))).
        apply in_app_iff. destruct Hx as [Hx|(c & Hc' & ->)]; [left; exact Hx|].
        right. apply in_map. exact Hc'. }
    assert (Hpne : p <> []) by (intros ->; discriminate).
    set (visited' := set_add current visited).
    assert (Hvis : forall x, In x visited' <-> x = current \/ In x visited)
      by (intros; apply In_set_add).
    split.
    + simpl. split; [|split; [|split; [|split; [|split]]]].
      * intros d' p' H. apply HQ in H as [H|(c & Hc' & H)]; [apply D1; right; exact H|].
        injection H as -> ->. split; [|split; [|split]].
        -- destruct p as [|a p]; [contradiction|]. exact Hh.
        -- apply chain_snoc; [exact Hpne | exact Hc |]. apply In_children, Hc'.
        -- rewrite length_app. simpl. lia.
        -- rewrite last_last. right.
           apply In_children in Hc'. eapply edge_in_everything_r, Hc'.
      * apply enqueue_fold_sorted. apply StronglySorted_inv in D2 as [D2 _]. exact D2.
      * intros Ht. apply Hvis in Ht as [Ht|Ht]; [apply Et; symmetry; exact Ht | contradiction].
      * destruct D4 as [H|[H|H]].
        -- left. apply Hvis. auto.
        -- injection H as _ Hp. left. apply Hvis. left. unfold current. rewrite Hp. reflexivity.
        -- right. apply HQ. left. exact H.
      * intros v c m Hv Hvc Hc' Hw.
        assert (Hcv : ~ In c visited) by (intros H; apply Hc', Hvis; auto).
        apply Hvis in Hv as [->|Hv].
        -- exists (d + 1), (p ++ [c]). split; [apply HQ; right; exists c; split; [apply In_children, Hvc | reflexivity]|].
           split; [apply last_last|].
           pose proof (dj_head_minimal d p rest visited m Hinv Ev Hw). lia.
        -- destruct (D5 v c m Hv Hvc Hcv Hw) as (e & p' & [He|He] & Hl & Hle).
           ++ injection He as <- <-. exfalso. apply Hc', Hvis. left. symmetry. exact Hl.
           ++ exists e, p'. split; [apply HQ; left; exact He | auto].
      * intros x Hx. apply Hvis in Hx as [->|Hx]; [exact HU | apply D6, Hx].
    + simpl. unfold Q. rewrite (Permutation_length (enqueue_fold_perm g cs rest)).
      rewrite length_app, length_map.
      assert (Hcs : (length cs <= length edges)%nat) by apply length_children.
      assert (Hlt : (unvisited (s :: everything edges) visited'
                     < unvisited (s :: everything edges) visited)%nat).
      { apply unvisited_lt with current; [apply incl_set_add | exact HU | exact Ev
                                          | apply Hvis; auto]. }
      assert (Hm : (unvisited (s :: everything edges) visited' * (length edges + 1)
                    + (length edges + 1)
                    <= unvisited (s :: everything edges) visited * (length edges + 1))%nat)
        by nia.
      lia.
Qed.

Lemma dj_break st r :
  inv st -> dijkstra_body t edges st = Break r -> dj_post edges s t r.
Proof.
  destruct st as [queue visited].
  intros Hinv H. pose proof Hinv as (D1 & D2 & D3 & D4 & D5 & D6).
  destruct queue as [|[d p] rest]; simpl in H.
  - injection H as <-. left. split; [reflexivity|].
    intros m Hw. destruct (dj_reach _ _ _ _ Hinv Hw D3) as (e & p & [] & _).
  - destruct (Z.eqb (last p 0) t) eqn:Et.
    + injection H as <-. apply Z.eqb_eq in Et.
      destruct (D1 d p (or_introl eq_refl)) as (Hh & Hc & Hd & _).
      right. split; [split; [exact Hh | split; [exact Et | exact Hc]]|].
      intros m Hw. rewrite <- Et in Hw, D3.
      pose proof (dj_head_minimal d p rest visited m Hinv D3 Hw). lia.
    + destruct (set_has (last p 0) visited); discriminate.
Qed.

End Dijkstra.

Lemma dijkstra_run_post edges s t :
  exists r, dijkstra_run s t edges = Some r /\ dj_post edges s t r.
Proof.
  assert (Hinit := dj_init edges s t).
  assert (Hmu : (dj_measure edges s (enqueue (0%Z, [s]) [], []) < fuel edges)%nat).
  { change (dj_measure edges s (enqueue (0%Z, [s]) [], []))
      with (unvisited (s :: everything edges) [] * (length edges + 1) + 1)%nat.
    pose proof (unvisited_le (s :: everything edges) []) as H1.
    pose proof (length_everything edges) as H2. simpl length in H1.
    assert (unvisited (s :: everything edges) [] * (length edges + 1)
            <= (2 * length edges + 1) * (length edges + 1))%nat by nia.
    unfold fuel. lia. }
  destruct (while_loop_terminates (dijkstra_body t edges) (dj_inv edges s t) (dj_measure edges s)
              (fun st st' Hi He => proj1 (dj_step edges s t st st' Hi He))
              (fun st st' Hi He => proj2 (dj_step edges s t st st' Hi He))
              (fuel edges) _ Hinit Hmu) as [r Hr].
  exists r. split; [exact Hr|].
  exact (while_loop_inv (dijkstra_body t edges) (dj_inv edges s t) (dj_post edges s t)
           (fun st st' Hi He => proj1 (dj_step edges s t st st' Hi He))
           (dj_break edges s t) (fuel edges) _ r Hinit Hr).
Qed.

Lemma dijkstraShortestPath_post edges s t :
  dj_post edges s t (dijkstraShortestPath s t edges).
Proof.
  destruct (dijkstra_run_post edges s t) as (r & Hr & Hp).
  unfold dijkstraShortestPath. rewrite Hr. exact Hp.
Qed.

(** C1: when [target] is reachable from [source] along directed edges,
    [dijkstraShortestPath source target edges] is a path of directed edges
    from [source] to [target] with no more vertices (hence hops) than any
    other such path; and the query from a vertex to itself is [[a]]. *)
Theorem dijkstraShortestPath_shortest (source target a : Z) (edges : list DirectedEdge) :
  ((exists q, is_path edges source target q) ->
   is_path edges source target (dijkstraShortestPath source target edges) /\
   forall q, is_path edges source target q ->
     (length (dijkstraShortestPath source target edges) <= length q)%nat) /\
  dijkstraShortestPath a a edges = [a].
Proof.
  split.
  - intros [q0 Hq0].
    destruct (dijkstraShortestPath_post edges source target) as [[_ Hn]|[Hp Hmin]].
    + exfalso. exact (Hn _ (path_walk _ _ _ _ Hq0)).
    + split; [exact Hp|]. intros q Hq.
      pose proof (Hmin _ (path_walk _ _ _ _ Hq)) as H.
      destruct Hq as [Hh _]. destruct q as [|x q]; [discriminate|]. simpl in H |- *. lia.
  - unfold dijkstraShortestPath, dijkstra_run. rewrite fuel_SS. simpl.
    rewrite Z.eqb_refl. reflexivity.
Qed.

(** Instance of C1 on the scenario [(1,2),(2,3),(1,4)]: the query from 1
    to 3 gives [[1;2;3]]. *)
Lemma dijkstraShortestPath_shortest_witness :
  is_path [mkEdge 1 2; mkEdge 2 3; mkEdge 1 4] 1 3
    (dijkstraShortestPath 1 3 [mkEdge 1 2; mkEdge 2 3; mkEdge 1 4]) /\
  dijkstraShortestPath 1 3 [mkEdge 1 2; mkEdge 2 3; mkEdge 1 4] = [1; 2; 3].
Proof.
  split; [|vm_compute; reflexivity].
  apply (proj1 (dijkstraShortestPath_shortest 1 3 1 [mkEdge 1 2; mkEdge 2 3; mkEdge 1 4])).
  exists [1; 2; 3]. vm_compute. split; [reflexivity | split; reflexivity].
Defined.

(** ** Queries on a vertex that appears in no edge *)

Lemma nil_of_no_In {A : Type} (l : list A) : (forall x, ~ In x l) -> l = [].
Proof. destruct l as [|a l]; intros H; [reflexivity|]. exfalso. apply (H a). left. reflexivity. Qed.

Lemma tc_last R x y : tc R x y -> exists z, R z y.
Proof. induction 1 as [x y H|x y z _ _ IH]; [exists x; exact H | exact IH]. Qed.

Lemma tc_first R x y : tc R x y -> exists z, R x z.
Proof. induction 1 as [x y H|x y z H _ _]; exists y; exact H. Qed.

Lemma absent_edges id edges :
  ~ In id (everything edges) -> forall e, In e edges -> source e <> id /\ target e <> id.
Proof.
  intros Hn e He. split; intros Heq; apply Hn, In_everything; exists e; auto.
Qed.

Lemma sweep_edge_absent mode id b e :
  source e <> id -> target e <> id -> sweep_edge mode ([id], b) e = ([id], b).
Proof.
  intros Hs Ht. unfold sweep_edge, set_has. cbn [existsb].
  rewrite (proj2 (Z.eqb_neq _ _) Hs), (proj2 (Z.eqb_neq _ _) Ht).
  destruct mode; simpl; rewrite ?(proj2 (Z.eqb_neq _ _) Hs), ?(proj2 (Z.eqb_neq _ _) Ht); reflexivity.
Qed.

Lemma sweep_absent mode id edges :
  (forall e, In e edges -> source e <> id /\ target e <> id) ->
  fold_left (sweep_edge mode) edges ([id], false) = ([id], false).
Proof.
  induction edges as [|e edges IH]; intros H; [reflexivity|]. cbn [fold_left].
  destruct (H e (or_introl eq_refl)) as [Hs Ht].
  rewrite sweep_edge_absent by assumption. apply IH. intros e' He'. apply H. right. exact He'.
Qed.

Lemma traverse_sweep_absent id edges mode :
  ~ In id (everything edges) -> traverse_sweep id edges mode = [].
Proof.
  intros Hn. unfold traverse_sweep, traverse_run. rewrite fuel_SS. cbn [while_loop].
  unfold traverse_body. rewrite (sweep_absent mode id edges (absent_edges id edges Hn)).
  simpl. rewrite Z.eqb_refl. reflexivity.
Qed.

Lemma SearchTs_children_absent id edges :
  ~ In id (everything edges) -> SearchTs.children id edges = [].
Proof.
  intros Hn. unfold SearchTs.children. rewrite filter_all_false; [reflexivity|].
  intros e He. apply Z.eqb_neq. apply (absent_edges id edges Hn e He).
Qed.

Lemma dijkstra_unreachable edges s t :
  (forall m, ~ walk edges s t m) -> dijkstraShortestPath s t edges = [].
Proof.
  intros Hn. destruct (dijkstraShortestPath_post edges s t) as [[H _]|[Hp _]]; [exact H|].
  exfalso. exact (Hn _ (path_walk _ _ _ _ Hp)).
Qed.

(** C7 (amended): for a vertex [id] that appears in no edge, [parents],
    [children], [ancestors], [descendants], [related] and [traverse] in the
    modes ancestors, descendants and web return the empty sequence, but
    [traverse] in mode tree and the search.ts traversals [maze], [bfs] and
    [dfs] return [[id]], since they put the start vertex itself into their
    result; and [dijkstraShortestPath] with an unreachable target returns
    the empty sequence. *)
Theorem absent_vertex_queries (edges : list DirectedEdge) :
  (forall id maxDepth, ~ In id (everything edges) ->
     parents id edges = [] /\ children id edges = [] /\
     ancestors id edges = [] /\ descendants id edges = [] /\ related id edges = [] /\
     traverse id edges Ancestors = [] /\ traverse id edges Descendants = [] /\
     traverse id edges Web = [] /\ traverse id edges Tree = [id] /\
     SearchTs.maze id edges = [id] /\ SearchTs.bfs id edges = [id] /\
     SearchTs.dfs id edges maxDepth = [id]) /\
  (forall s t, (forall m, ~ walk edges s t m) -> dijkstraShortestPath s t edges = []).
Proof.
  split; [|exact (dijkstra_unreachable edges)].
  intros id maxDepth Hn.
  assert (Hne : forall x, ~ edge_in edges x id /\ ~ edge_in edges id x).
  { intros x. split; intros H; apply Hn;
      [eapply edge_in_everything_r, H | eapply edge_in_everything_l, H]. }
  assert (Hp : parents id edges = []).
  { apply nil_of_no_In. intros x Hx. apply In_parents in Hx. exact (proj1 (Hne x) Hx). }
  assert (Hc : children id edges = []).
  { apply nil_of_no_In. intros x Hx. apply In_children in Hx. exact (proj2 (Hne x) Hx). }
  assert (Ha : ancestors id edges = []).
  { apply nil_of_no_In. intros x Hx. apply ancestors_spec, tc_last in Hx as [z Hz].
    exact (proj1 (Hne z) Hz). }
  assert (Hd : descendants id edges = []).
  { apply nil_of_no_In. intros x Hx. apply descendants_spec, tc_first in Hx as [z Hz].
    exact (proj2 (Hne z) Hz). }
  assert (Hsc := SearchTs_children_absent id edges Hn).
  assert (Hsw := traverse_sweep_absent id edges).
  split; [exact Hp|]. split; [exact Hc|]. split; [exact Ha|]. split; [exact Hd|].
  split; [unfold related; rewrite Ha, Hd; reflexivity|].
  split; [exact (Hsw Ancestors Hn)|]. split; [exact (Hsw Descendants Hn)|].
  split; [exact (Hsw Web Hn)|].
  split; [unfold traverse; rewrite (Hsw Ancestors Hn), (Hsw Descendants Hn); reflexivity|].
  split; [|split].
  - unfold SearchTs.maze, SearchTs.maze_run. rewrite fuel_SS. cbn [while_loop].
    unfold SearchTs.visit_body at 1. cbn [set_has existsb]. rewrite Hsc. reflexivity.
  - unfold SearchTs.bfs, SearchTs.bfs_run. rewrite fuel_SS. cbn [while_loop].
    unfold SearchTs.visit_body at 1. cbn [set_has existsb]. rewrite Hsc. reflexivity.
  - unfold SearchTs.dfs, SearchTs.dfs_run. rewrite fuel_SS. cbn [while_loop].
    unfold SearchTs.dfs_body at 1. cbn [set_has existsb]. rewrite Hsc.
    destruct (0 <? maxDepth); reflexivity.
Qed.

(** Instance of C7 (amended) on [[(1,2)]] and the absent vertex 5, and on
    the unreachable query from 2 to 1. *)
Lemma absent_vertex_queries_witness :
  ~ In 5 (everything [mkEdge 1 2]) /\
  traverse 5 [mkEdge 1 2] Web = [] /\ SearchTs.bfs 5 [mkEdge 1 2] = [5] /\
  dijkstraShortestPath 2 1 [mkEdge 1 2] = [].
Proof.
  assert (Hn : ~ In 5 (everything [mkEdge 1 2])) by (vm_compute; intuition discriminate).
  destruct (absent_vertex_queries [mkEdge 1 2]) as [H1 H2].
  destruct (H1 5 0 Hn) as (_ & _ & _ & _ & _ & _ & _ & Hw & _ & _ & Hb & _).
  split; [exact Hn|]. split; [exact Hw|]. split; [exact Hb|].
  apply H2. intros m Hm.
  assert (Hgen : forall v, walk [mkEdge 1 2] 2 v m -> v = 2).
  { clear Hm. induction m as [|m IH]; intros v Hv; inversion Hv; subst; [reflexivity|].
    match goal with Hw' : walk _ _ ?u m, He : edge_in _ ?u v |- _ =>
      apply IH in Hw'; subst; destruct He as [He|[]]; discriminate end. }
  apply Hgen in Hm. discriminate.
Defined.

(** C7 counterexample: [bfs] from a vertex of no edge returns that vertex,
    not an empty result. *)
Lemma absent_vertex_counterexample :
  ~ In 5 (everything [mkEdge 1 2]) /\ SearchTs.bfs 5 [mkEdge 1 2] = [5].
Proof. split; [vm_compute; intuition discriminate | vm_compute; reflexivity]. Qed.

(** ** Pairs of odd vertices in [postman] *)

Lemma NoDup_oddNodes edges : NoDup (oddNodes edges).
Proof. apply NoDup_filter, NoDup_everything. Qed.

Lemma In_oddNodes a edges :
  In a (oddNodes edges) <->
  In a (everything edges) /\ Nat.modulo (length (related a edges)) 2 = 1%nat.
Proof. unfold oddNodes. rewrite filter_In, Nat.eqb_eq. reflexivity. Qed.

Lemma In_pairs (L : list Z) a b :
  In (a, b) (flat_map (fun id => map (fun otherId => (id, otherId))
                                   (filter (fun otherId => negb (Z.eqb otherId id)) L)) L)
  <-> a <> b /\ In a L /\ In b L.
Proof.
  rewrite in_flat_map. split.
  - intros (x & Hx & Hm). apply in_map_iff in Hm as (y & Hy & Hf).
    injection Hy as -> ->. apply filter_In in Hf as [Hb Hne].
    apply negb_true_iff, Z.eqb_neq in Hne. auto.
  - intros (Hne & Ha & Hb). exists a. split; [exact Ha|].
    apply in_map_iff. exists b. split; [reflexivity|]. apply filter_In.
    split; [exact Hb|]. apply negb_true_iff, Z.eqb_neq. auto.
Qed.

Lemma NoDup_map_pair (a : Z) (l : list Z) :
  NoDup l -> NoDup (map (fun o => (a, o)) l).
Proof.
  induction 1 as [|x l Hx Hl IH]; simpl; constructor; [|exact IH].
  intros H. apply in_map_iff in H as (y & Hy & Hy'). injection Hy as ->. contradiction.
Qed.

Lemma NoDup_pairs (L l : list Z) :
  NoDup L -> NoDup l ->
  NoDup (flat_map (fun id => map (fun otherId => (id, otherId))
                               (filter (fun otherId => negb (Z.eqb otherId id)) L)) l).
Proof.
  intros HL. induction 1 as [|x l Hx Hl IH]; simpl; [constructor|].
  apply NoDup_app; [apply NoDup_map_pair, NoDup_filter, HL | exact IH |].
  intros [a b] H1 H2. apply in_map_iff in H1 as (y & Hy & _). injection Hy as -> ->.
  apply in_flat_map in H2 as (z & Hz & H2). apply in_map_iff in H2 as (w & Hw & _).
  injection Hw as -> _. contradiction.
Qed.

Lemma filter_neq_notin (a : Z) (L : list Z) :
  ~ In a L -> filter (fun o => negb (Z.eqb o a)) L = L.
Proof.
  induction L as [|x L IH]; intros H; simpl; [reflexivity|].
  destruct (Z.eqb_spec x a) as [->|Hne]; [exfalso; apply H; left; reflexivity|].
  simpl. rewrite IH; [reflexivity|]. intros Ha. apply H. right. exact Ha.
Qed.

Lemma length_filter_neq (a : Z) (L : list Z) :
  NoDup L -> In a L -> length (filter (fun o => negb (Z.eqb o a)) L) = (length L - 1)%nat.
Proof.
  induction 1 as [|x L Hx HL IH]; intros Ha; [destruct Ha|]. simpl.
  destruct (Z.eqb_spec x a) as [->|Hne]; simpl.
  - rewrite filter_neq_notin by exact Hx. lia.
  - destruct Ha as [Ha|Ha]; [congruence|].
    rewrite (IH Ha). destruct L; [destruct Ha|]. simpl. lia.
Qed.

(** C9 (amended): [postman] computes one [dijkstraShortestPath] per
    ordered pair [(a, b)] of distinct odd vertices (a vertex of [everything]
    whose [related] set has odd size), so both [(a, b)] and [(b, a)] occur:
    the pairs listed are exactly those, each once, and with [k] odd vertices
    there are [k * (k - 1)] paths. *)
Theorem postman_ordered_pairs (edges : list DirectedEdge) :
  postman edges = map (fun '(s, t) => dijkstraShortestPath s t edges) (oddPairs edges) /\
  (forall a, In a (oddNodes edges) <->
     In a (everything edges) /\ Nat.modulo (length (related a edges)) 2 = 1%nat) /\
  (forall a b, In (a, b) (oddPairs edges) <->
     a <> b /\ In a (oddNodes edges) /\ In b (oddNodes edges)) /\
  NoDup (oddPairs edges) /\
  length (postman edges) = (length (oddNodes edges) * (length (oddNodes edges) - 1))%nat.
Proof.
  pose proof (NoDup_oddNodes edges) as HL.
  split; [reflexivity|]. split; [intros a; apply In_oddNodes|].
  split; [intros a b; apply In_pairs|]. split; [apply NoDup_pairs; exact HL|].
  unfold postman, oddPairs. rewrite length_map.
  apply flat_map_constant_length. intros x Hx.
  rewrite length_map. apply length_filter_neq; assumption.
Qed.

(** C9 counterexample: on the single edge [(1,2)] both vertices are odd,
    and [postman] returns two paths for the one unordered pair [{1, 2}]. *)
Lemma postman_counterexample :
  oddNodes [mkEdge 1 2] = [1; 2] /\ postman [mkEdge 1 2] = [[1; 2]; []].
Proof. split; vm_compute; reflexivity. Qed.

(** ** [hasCycle] on acyclic inputs *)

(** C3: on the acyclic edge lists [(1,2),(2,3),(1,4)] (the spec's scenario)
    and [(1,2),(2,3)] (a single path), [hasCycle] runs to completion and
    returns [true]: it expands each vertex to its whole [related] set
    (every ancestor and descendant, not only its neighbours), so vertex 3,
    queued as a descendant of 1, is met again as a neighbour of 2 while
    still queued. *)
Theorem hasCycle_acyclic_true :
  hasCycle_run [mkEdge 1 2; mkEdge 2 3; mkEdge 1 4] = Some true /\
  hasCycle [mkEdge 1 2; mkEdge 2 3; mkEdge 1 4] = true /\
  hasCycle_run [mkEdge 1 2; mkEdge 2 3] = Some true /\
  related 1 [mkEdge 1 2; mkEdge 2 3] = [2; 3].
Proof. repeat split; vm_compute; reflexivity. Qed.

(** ** The traversals of search.ts *)

Lemma SearchTs_In_children v id edges :
  In v (SearchTs.children id edges) <-> edge_in edges id v.
Proof.
  unfold SearchTs.children, edge_in. rewrite in_map_iff. split.
  - intros (e & <- & He). apply filter_In in He as [He Hs]. apply Z.eqb_eq in Hs.
    destruct e as [a b]. simpl in *. subst. exact He.
  - intros H. exists (mkEdge id v). split; [reflexivity|]. apply filter_In.
    split; [exact H | apply Z.eqb_refl].
Qed.

Lemma length_SearchTs_children id edges :
  (length (SearchTs.children id edges) <= length edges)%nat.
Proof. unfold SearchTs.children. rewrite length_map. apply filter_length_le. Qed.

Lemma set_add_new x s : set_has x s = false -> set_add x s = s ++ [x].
Proof. unfold set_add. intros ->. reflexivity. Qed.

Section Visit.
Variable edges : list DirectedEdge.
Variable start : Z.
Variable push : list Z -> list Z -> list Z.
Hypothesis push_In : forall x cs rest, In x (push cs rest) <-> In x cs \/ In x rest.
Hypothesis push_len : forall cs rest, length (push cs rest) = (length cs + length rest)%nat.

Local Abbreviation inv := (vis_inv edges start).
Local Abbreviation measure := (vis_measure edges start).

Lemma vis_init : inv ([start], [], []).
Proof.
  simpl. split; [reflexivity|]. split; [constructor|].
  split; [intros x [[<-|[]]|[]]; exists 0%nat; constructor|].
  split; [intros v c []|]. split; [right; left; reflexivity|].
  intros x [[<-|[]]|[]]. left. reflexivity.
Qed.

Lemma vis_step st st' :
  inv st -> SearchTs.visit_body edges push st = Continue st' ->
  inv st' /\ (measure st' < measure st)%nat.
Proof.
  destruct st as [[work visited] result].
  intros (I1 & I2 & I3 & I4 & I5 & I6) H.
  destruct work as [|current rest]; simpl in H; [discriminate|].
  destruct (set_has current visited) eqn:Ev.
  - injection H as <-. apply set_has_In in Ev. simpl. split; [|lia].
    split; [exact I1|]. split; [exact I2|].
    split; [intros x [Hx|Hx]; apply I3; [left; right|right]; exact Hx|].
    split.
    { intros v c Hv Hvc. destruct (I4 v c Hv Hvc) as [Hc|[<-|Hc]]; auto. }
    split; [destruct I5 as [Hs|[<-|Hs]]; auto|].
    intros x [Hx|Hx]; apply I6; [left; right|right]; exact Hx.
  - injection H as <-. apply set_has_false in Ev.
    set (cs := SearchTs.children current edges).
    assert (Hcs : forall x, In x cs <-> edge_in edges current x) by (intros; apply SearchTs_In_children).
    assert (Hvis : forall x, In x (set_add current visited) <-> x = current \/ In x visited)
      by (intros; apply In_set_add).
    destruct (I3 current (or_introl (or_introl eq_refl))) as [mc Hmc].
    simpl. split.
    + split; [rewrite set_add_new; [congruence | apply set_has_false; exact Ev]|].
      split; [apply NoDup_set_add, I2|].
      split.
      { intros x [Hx|Hx].
        - apply push_In in Hx as [Hx|Hx].
          + exists (Datatypes.S mc). apply walk_step with current; [exact Hmc | apply Hcs, Hx].
          + apply I3. left. right. exact Hx.
        - apply Hvis in Hx as [->|Hx]; [exists mc; exact Hmc | apply I3; right; exact Hx]. }
      split.
      { intros v c Hv Hvc. apply Hvis in Hv as [->|Hv].
        - right. apply push_In. left. apply Hcs, Hvc.
        - destruct (I4 v c Hv Hvc) as [Hc|[<-|Hc]].
          + left. apply Hvis. right. exact Hc.
          + left. apply Hvis. left. reflexivity.
          + right. apply push_In. right. exact Hc. }
      split.
      { destruct I5 as [Hs|[<-|Hs]].
        - left. apply Hvis. right. exact Hs.
        - left. apply Hvis. left. reflexivity.
        - right. apply push_In. right. exact Hs. }
      intros x [Hx|Hx].
      * apply push_In in Hx as [Hx|Hx].
        -- right. eapply edge_in_everything_r, Hcs, Hx.
        -- apply I6. left. right. exact Hx.
      * apply Hvis in Hx as [->|Hx]; apply I6; [left; left; reflexivity | right; exact Hx].
    + rewrite push_len.
      assert (Hl : (length cs <= length edges)%nat) by apply length_SearchTs_children.
      assert (Hlt : (unvisited (start :: everything edges) (set_add current visited)
                     < unvisited (start :: everything edges) visited)%nat).
      { apply unvisited_lt with current; [apply incl_set_add | apply I6; left; left; reflexivity
                                          | exact Ev | apply Hvis; auto]. }
      simpl. nia.
Qed.

Lemma vis_break st r :
  inv st -> SearchTs.visit_body edges push st = Break r ->
  NoDup r /\ forall v, In v r <-> exists m, walk edges start v m.
Proof.
  destruct st as [[work visited] result].
  intros (I1 & I2 & I3 & I4 & I5 & I6) H.
  destruct work as [|current rest]; simpl in H;
    [|destruct (set_has current visited); discriminate].
  injection H as <-. subst result. split; [exact I2|].
  intros v. split; [intros Hv; apply I3; right; exact Hv|].
  intros [m Hw]. induction Hw as [|u v m Hw IH Huv].
  - destruct I5 as [Hs|[]]. exact Hs.
  - destruct (I4 u v IH Huv) as [Hv|[]]. exact Hv.
Qed.

Lemma vis_result :
  exists r, while_loop (SearchTs.visit_body edges push) (fuel edges) ([start], [], []) = Some r
    /\ NoDup r /\ forall v, In v r <-> exists m, walk edges start v m.
Proof.
  assert (Hmu : (measure ([start], [], []) < fuel edges)%nat).
  { change (measure ([start], [], []))
      with (unvisited (start :: everything edges) [] * (length edges + 1) + 1)%nat.
    pose proof (unvisited_le (start :: everything edges) []) as H1.
    pose proof (length_everything edges) as H2. simpl length in H1.
    assert (unvisited (start :: everything edges) [] * (length edges + 1)
            <= (2 * length edges + 1) * (length edges + 1))%nat by nia.
    unfold fuel. lia. }
  destruct (while_loop_terminates (SearchTs.visit_body edges push) inv measure
              (fun st st' Hi He => proj1 (vis_step st st' Hi He))
              (fun st st' Hi He => proj2 (vis_step st st' Hi He))
              (fuel edges) _ vis_init Hmu) as [r Hr].
  exists r. split; [exact Hr|].
  exact (while_loop_inv (SearchTs.visit_body edges push) inv
           (fun r => NoDup r /\ forall v, In v r <-> exists m, walk edges start v m)
           (fun st st' Hi He => proj1 (vis_step st st' Hi He))
           vis_break (fuel edges) _ r vis_init Hr).
Qed.

End Visit.

Lemma maze_spec start edges :
  NoDup (SearchTs.maze start edges) /\
  forall v, In v (SearchTs.maze start edges) <-> exists m, walk edges start v m.
Proof.
  destruct (vis_result edges start (fun cs rest => rev cs ++ rest)) as (r & Hr & Hp).
  - intros x cs rest. rewrite in_app_iff, <- in_rev. reflexivity.
  - intros cs rest. rewrite length_app, length_rev. reflexivity.
  - unfold SearchTs.maze, SearchTs.maze_run. rewrite Hr. exact Hp.
Qed.

Lemma bfs_spec start edges :
  NoDup (SearchTs.bfs start edges) /\
  forall v, In v (SearchTs.bfs start edges) <-> exists m, walk edges start v m.
Proof.
  destruct (vis_result edges start (fun cs rest => rest ++ cs)) as (r & Hr & Hp).
  - intros x cs rest. rewrite in_app_iff. tauto.
  - intros cs rest. rewrite length_app. lia.
  - unfold SearchTs.bfs, SearchTs.bfs_run. rewrite Hr. exact Hp.
Qed.

Section Dfs.
Variable edges : list DirectedEdge.
Variables start maxDepth : Z.

Local Abbreviation inv := (dfs_inv edges start maxDepth).
Local Abbreviation measure := (dfs_measure edges start).

Lemma dfs_init : inv ([(start, 0%Z)], [], []).
Proof.
  simpl. split; [reflexivity|]. split; [constructor|].
  split; [intros v d [H|[]]; injection H as <- <-; split; [lia|];
          split; [left; reflexivity | split; [constructor | left; reflexivity]]|].
  split; intros v [].
Qed.

Lemma dfs_step st st' :
  inv st -> SearchTs.dfs_body edges maxDepth st = Continue st' ->
  inv st' /\ (measure st' < measure st)%nat.
Proof.
  destruct st as [[stack visited] result].
  intros (I1 & I2 & I3 & I4 & I5) H.
  destruct stack as [|[id depth] rest]; simpl in H; [discriminate|].
  destruct (I3 id depth (or_introl eq_refl)) as (Hd0 & Hdm & Hw & HU).
  destruct (set_has id visited) eqn:Ev.
  - injection H as <-. simpl. split; [|lia].
    split; [exact I1|]. split; [exact I2|].
    split; [intros v d Hvd; apply I3; right; exact Hvd|]. split; [exact I4 | exact I5].
  - injection H as <-. apply set_has_false in Ev.
    set (cs := SearchTs.children id edges).
    set (stack' := if depth <? maxDepth
                   then rev (map (fun child => (child, depth + 1)) cs) ++ rest else rest).
    assert (Hvis : forall x, In x (set_add id visited) <-> x = id \/ In x visited)
      by (intros; apply In_set_add).
    assert (Hst : forall v d, In (v, d) stack' ->
                  In (v, d) rest \/ (depth < maxDepth /\ d = depth + 1 /\ edge_in edges id v)).
    { intros v d. unfold stack'. destruct (Z.ltb_spec depth maxDepth) as [Hlt|Hge]; [|auto].
      rewrite in_app_iff, <- in_rev, in_map_iff. intros [(c & Hc & Hin)|Hr]; [|auto].
      injection Hc as -> ->. right. split; [exact Hlt|]. split; [reflexivity|].
      apply SearchTs_In_children, Hin. }
    assert (Hlen : (length stack' <= length cs + length rest)%nat).
    { unfold stack'. destruct (depth <? maxDepth); [|lia].
      rewrite length_app, length_rev, length_map. lia. }
    simpl. split.
    + split; [rewrite set_add_new; [congruence | apply set_has_false; exact Ev]|].
      split; [apply NoDup_set_add, I2|].
      split.
      { intros v d Hvd. apply Hst in Hvd as [Hvd|(Hlt & -> & Hidv)]; [apply I3; right; exact Hvd|].
        split; [lia|]. split; [right; lia|]. split.
        - replace (Z.to_nat (depth + 1)) with (Datatypes.S (Z.to_nat depth)) by lia.
          apply walk_step with id; assumption.
        - right. eapply edge_in_everything_r, Hidv. }
      split.
      { intros v Hv. apply Hvis in Hv as [->|Hv]; [|apply I4, Hv].
        exists (Z.to_nat depth). split; [exact Hw | lia]. }
      intros x Hx. apply Hvis in Hx as [->|Hx]; [exact HU | apply I5, Hx].
    + assert (Hl : (length cs <= length edges)%nat) by apply length_SearchTs_children.
      assert (Hlt : (unvisited (start :: everything edges) (set_add id visited)
                     < unvisited (start :: everything edges) visited)%nat).
      { apply unvisited_lt with id; [apply incl_set_add | exact HU | exact Ev | apply Hvis; auto]. }
      nia.
Qed.

Lemma dfs_break st r :
  inv st -> SearchTs.dfs_body edges maxDepth st = Break r ->
  NoDup r /\ forall v, In v r ->
    exists m, walk edges start v m /\ (m = 0%nat \/ Z.of_nat m <= maxDepth).
Proof.
  destruct st as [[stack visited] result].
  intros (I1 & I2 & I3 & I4 & I5) H.
  destruct stack as [|[id depth] rest]; simpl in H;
    [|destruct (set_has id visited); discriminate].
  injection H as <-. subst result. split; [exact I2 | exact I4].
Qed.

Lemma dfs_result :
  exists r, SearchTs.dfs_run start edges maxDepth = Some r /\
    NoDup r /\ forall v, In v r ->
      exists m, walk edges start v m /\ (m = 0%nat \/ Z.of_nat m <= maxDepth).
Proof.
  assert (Hmu : (measure ([(start, 0%Z)], [], []) < fuel edges)%nat).
  { change (measure ([(start, 0%Z)], [], []))
      with (unvisited (start :: everything edges) [] * (length edges + 1) + 1)%nat.
    pose proof (unvisited_le (start :: everything edges) []) as H1.
    pose proof (length_everything edges) as H2. simpl length in H1.
    assert (unvisited (start :: everything edges) [] * (length edges + 1)
            <= (2 * length edges + 1) * (length edges + 1))%nat by nia.
    unfold fuel. lia. }
  destruct (while_loop_terminates (SearchTs.dfs_body edges maxDepth) inv measure
              (fun st st' Hi He => proj1 (dfs_step st st' Hi He))
              (fun st st' Hi He => proj2 (dfs_step st st' Hi He))
              (fuel edges) _ dfs_init Hmu) as [r Hr].
  exists r. split; [exact Hr|].
  exact (while_loop_inv (SearchTs.dfs_body edges maxDepth) inv _
           (fun st st' Hi He => proj1 (dfs_step st st' Hi He))
           dfs_break (fuel edges) _ r dfs_init Hr).
Qed.

End Dfs.

Lemma dfs_spec start edges maxDepth :
  NoDup (SearchTs.dfs start edges maxDepth) /\
  forall v, In v (SearchTs.dfs start edges maxDepth) ->
    exists m, walk edges start v m /\ (m = 0%nat \/ Z.of_nat m <= maxDepth).
Proof.
  destruct (dfs_result edges start maxDepth) as (r & Hr & Hp).
  unfold SearchTs.dfs. rewrite Hr. exact Hp.
Qed.

(** C8 (amended): [maze], [bfs] and [dfs] of search.ts follow only the
    [children] of each vertex (directed edges), never its parents; each
    returns every vertex at most once. [maze] and [bfs] return exactly the
    vertices reachable from [start] along directed edges ([start] included);
    every vertex [dfs] returns is reachable from [start] along directed
    edges in at most [maxDepth] hops ([start] in zero hops). *)
Theorem search_traversals_directed (start maxDepth : Z) (edges : list DirectedEdge) :
  NoDup (SearchTs.maze start edges) /\ NoDup (SearchTs.bfs start edges) /\
  NoDup (SearchTs.dfs start edges maxDepth) /\
  (forall v, In v (SearchTs.maze start edges) <-> exists m, walk edges start v m) /\
  (forall v, In v (SearchTs.bfs start edges) <-> exists m, walk edges start v m) /\
  (forall v, In v (SearchTs.dfs start edges maxDepth) ->
     exists m, walk edges start v m /\ (m = 0%nat \/ Z.of_nat m <= maxDepth)).
Proof.
  destruct (maze_spec start edges) as [Hm1 Hm2].
  destruct (bfs_spec start edges) as [Hb1 Hb2].
  destruct (dfs_spec start edges maxDepth) as [Hd1 Hd2].
  repeat split; assumption || apply Hm2 || apply Hb2 || apply Hd2; assumption.
Qed.

(** Instance of C8 (amended): vertex 5 is returned by [bfs] from 1 on
    [(1,2),(2,3),(1,4),(3,5)], hence reachable from 1 along directed edges. *)
Lemma search_traversals_directed_witness :
  In 5 (SearchTs.bfs 1 [mkEdge 1 2; mkEdge 2 3; mkEdge 1 4; mkEdge 3 5]) /\
  exists m, walk [mkEdge 1 2; mkEdge 2 3; mkEdge 1 4; mkEdge 3 5] 1 5 m.
Proof.
  assert (H : In 5 (SearchTs.bfs 1 [mkEdge 1 2; mkEdge 2 3; mkEdge 1 4; mkEdge 3 5]))
    by (vm_compute; tauto).
  split; [exact H|].
  destruct (search_traversals_directed 1 0 [mkEdge 1 2; mkEdge 2 3; mkEdge 1 4; mkEdge 3 5])
    as (_ & _ & _ & _ & Hb & _).
  apply Hb, H.
Defined.

(** C8 counterexample: on the single edge [(1,2)], vertex 1 is a parent of
    2, yet the traversals from 2 never reach it. *)
Lemma search_traversals_counterexample :
  parents 2 [mkEdge 1 2] = [1] /\
  SearchTs.maze 2 [mkEdge 1 2] = [2] /\ SearchTs.bfs 2 [mkEdge 1 2] = [2] /\
  SearchTs.dfs 2 [mkEdge 1 2] 1 = [2].
Proof. repeat split; vm_compute; reflexivity. Qed.

(** The recursive [ancestors] of search.ts has no visited set: on the
    self-loop [(1, 1)] it calls itself on 1 again at every depth, so no call
    depth is enough. *)
Lemma SearchTs_ancestors_self_loop n : SearchTs.ancestors_rec n 1 [mkEdge 1 1] = None.
Proof.
  induction n as [|n IH]; [reflexivity|]. simpl. rewrite IH. reflexivity.
Qed.

(** ** Further properties of the engine (src/unnamed/part_003) *)

Lemma NoDup_ancestors id edges : NoDup (ancestors id edges).
Proof.
  destruct (ancestors_loop id edges (fuel edges) (le_n _)) as (r & Hr & _ & Hn & _).
  unfold ancestors, ancestors_run. rewrite Hr. exact Hn.
Qed.

Lemma NoDup_descendants id edges : NoDup (descendants id edges).
Proof.
  destruct (descendants_loop id edges (fuel edges) (le_n _)) as (r & Hr & _ & Hn & _).
  unfold descendants, descendants_run. rewrite Hr. exact Hn.
Qed.

(** [parents], [children] and [everything] list each vertex once:
    [parents id E] the sources of the edges into [id], [children id E] the
    targets of the edges out of [id], [everything E] every endpoint. *)
Theorem graph_index_spec (id v : Z) (edges : list DirectedEdge) :
  (In v (parents id edges) <-> edge_in edges v id) /\ NoDup (parents id edges) /\
  (In v (children id edges) <-> edge_in edges id v) /\ NoDup (children id edges) /\
  (In v (everything edges) <-> exists e, In e edges /\ (v = source e \/ v = target e)) /\
  NoDup (everything edges).
Proof.
  split; [apply In_parents|]. split; [apply NoDup_set_of_list|].
  split; [apply In_children|]. split; [apply NoDup_set_of_list|].
  split; [apply In_everything | apply NoDup_everything].
Qed.

(** The worklist queries compute reachability: [ancestors id E] lists, once
    each, the vertices with a non-empty directed path to [id];
    [descendants id E] those reached by one from [id]; [related id E] the
    union of the two. *)
Theorem relationship_queries_reach (id v : Z) (edges : list DirectedEdge) :
  (In v (ancestors id edges) <-> tc (edge_in edges) v id) /\ NoDup (ancestors id edges) /\
  (In v (descendants id edges) <-> tc (edge_in edges) id v) /\ NoDup (descendants id edges) /\
  (In v (related id edges) <-> tc (edge_in edges) v id \/ tc (edge_in edges) id v) /\
  NoDup (related id edges).
Proof.
  split; [apply ancestors_spec|]. split; [apply NoDup_ancestors|].
  split; [apply descendants_spec|]. split; [apply NoDup_descendants|].
  split; [rewrite In_related, ancestors_spec, descendants_spec; reflexivity|].
  apply NoDup_set_of_list.
Qed.

(** [siblings id E] lists once each the other children of the parents of
    [id]; [cousins id E] lists once each the descendants of those siblings. *)
Theorem siblings_cousins_spec (id v : Z) (edges : list DirectedEdge) :
  (In v (siblings id edges) <-> v <> id /\ exists p, edge_in edges p id /\ edge_in edges p v) /\
  NoDup (siblings id edges) /\
  (In v (cousins id edges) <->
     exists s, (s <> id /\ exists p, edge_in edges p id /\ edge_in edges p s) /\
               tc (edge_in edges) s v) /\
  NoDup (cousins id edges).
Proof.
  split; [apply In_siblings|]. split; [apply NoDup_set_of_list|].
  split; [|apply NoDup_set_of_list].
  rewrite In_cousins. split; intros (s & Hs & Ht); exists s; split; auto; apply In_siblings; auto.
Qed.

Lemma In_uniqueNumbers_self v id l :
  In v (uniqueNumbers (l ++ [id])) <-> v = id \/ In v l.
Proof. unfold uniqueNumbers. rewrite In_set_of_list, in_app_iff. simpl. intuition. Qed.

Lemma In_uniqueNumbers_self_first v id l :
  In v (uniqueNumbers ([id] ++ l)) <-> v = id \/ In v l.
Proof. unfold uniqueNumbers. rewrite In_set_of_list. simpl. intuition. Qed.

Lemma uniqueNumbers_head id l : hd_error (uniqueNumbers ([id] ++ l)) = Some id.
Proof.
  unfold uniqueNumbers, set_of_list. simpl.
  assert (H : forall s, hd_error s = Some id -> hd_error (fold_left (fun s x => set_add x s) l s) = Some id).
  { induction l as [|x l IH]; intros s Hs; simpl; [exact Hs|]. apply IH.
    unfold set_add. destruct (set_has x s); [exact Hs|].
    destruct s; [discriminate | exact Hs]. }
  apply H. reflexivity.
Qed.

(** Each [...AndSelf] query is its base query with [id] added, without
    duplicates; [parentsAndSelf] and [descendantsAndSelf] list [id] first. *)
Theorem and_self_queries (id v : Z) (edges : list DirectedEdge) :
  (In v (parentsAndSelf id edges) <-> v = id \/ In v (parents id edges)) /\
  (In v (childrenAndSelf id edges) <-> v = id \/ In v (children id edges)) /\
  (In v (ancestorsAndSelf id edges) <-> v = id \/ In v (ancestors id edges)) /\
  (In v (descendantsAndSelf id edges) <-> v = id \/ In v (descendants id edges)) /\
  (In v (siblingsAndSelf id edges) <-> v = id \/ In v (siblings id edges)) /\
  (In v (cousinsAndSelf id edges) <-> v = id \/ In v (cousins id edges)) /\
  (In v (relatedAndSelf id edges) <-> v = id \/ In v (related id edges)) /\
  NoDup (parentsAndSelf id edges) /\ NoDup (childrenAndSelf id edges) /\
  NoDup (ancestorsAndSelf id edges) /\ NoDup (descendantsAndSelf id edges) /\
  NoDup (siblingsAndSelf id edges) /\ NoDup (cousinsAndSelf id edges) /\
  NoDup (relatedAndSelf id edges) /\
  hd_error (parentsAndSelf id edges) = Some id /\
  hd_error (descendantsAndSelf id edges) = Some id.
Proof.
  split; [apply In_uniqueNumbers_self_first|]. split; [apply In_uniqueNumbers_self|].
  split; [apply In_uniqueNumbers_self|]. split; [apply In_uniqueNumbers_self_first|].
  split; [apply In_uniqueNumbers_self|]. split; [apply In_uniqueNumbers_self|].
  split; [apply In_uniqueNumbers_self|].
  do 7 (split; [apply NoDup_set_of_list|]).
  split; apply uniqueNumbers_head.
Qed.

(** ** [undirected] and the web mode of [traverse] *)

Lemma edge_in_undirected edges x y :
  edge_in (undirected edges) x y <-> edge_in edges x y \/ edge_in edges y x.
Proof.
  unfold edge_in, undirected. rewrite in_flat_map. split.
  - intros ([a b] & He & [H|[H|[]]]); injection H as -> ->; auto.
  - intros [H|H]; [exists (mkEdge x y) | exists (mkEdge y x)]; simpl; auto.
Qed.

Lemma length_undirected edges : length (undirected edges) = (2 * length edges)%nat.
Proof. induction edges as [|e edges IH]; simpl; [reflexivity|]. rewrite IH. lia. Qed.

Lemma In_everything_undirected v edges :
  In v (everything (undirected edges)) <-> In v (everything edges).
Proof.
  rewrite !In_everything. split.
  - intros (e & He & Hv). unfold undirected in He. apply in_flat_map in He as (e' & He' & Hin).
    exists e'. split; [exact He'|]. destruct Hin as [<-|[<-|[]]]; simpl in *; tauto.
  - intros (e & He & Hv). exists e. split; [|exact Hv].
    unfold undirected. apply in_flat_map. exists e. split; [exact He | left; reflexivity].
Qed.

Lemma sweep_edge_web st e :
  sweep_edge Web st e =
  sweep_edge Ancestors (sweep_edge Ancestors st e) (mkEdge (target e) (source e)).
Proof.
  destruct st as [visited running]. unfold sweep_edge. simpl.
  repeat match goal with |- context [if ?c then _ else _] => destruct c end; reflexivity.
Qed.

Lemma fold_sweep_web edges st :
  fold_left (sweep_edge Web) edges st = fold_left (sweep_edge Ancestors) (undirected edges) st.
Proof.
  revert st. induction edges as [|e edges IH]; intros st; [reflexivity|].
  cbn [fold_left undirected flat_map app]. rewrite sweep_edge_web. apply IH.
Qed.

Lemma traverse_ancestors_loop_len edges id n :
  (Datatypes.S (length (everything edges)) < n)%nat ->
  exists V, while_loop (traverse_body Ancestors edges) n [id] = Some V /\
            forall v, In v V <-> v = id \/ tc (edge_in edges) v id.
Proof.
  intros Hn.
  set (U := id :: everything edges).
  set (Inv := fun V => In id V /\ (forall x, In x V -> x = id \/ tc (edge_in edges) x id)
                       /\ incl V U).
  assert (Hstep : forall V V', Inv V -> traverse_body Ancestors edges V = Continue V' ->
                               Inv V' /\ (unvisited U V' < unvisited U V)%nat).
  { intros V V' (H1 & H2 & H3) H. unfold traverse_body in H.
    destruct (fold_left (sweep_edge Ancestors) edges (V, false)) as [W r] eqn:Ef.
    destruct r; [injection H as <-|discriminate].
    destruct (sweep_closed edges (fun x => x = id \/ tc (edge_in edges) x id) edges V false W true
                (incl_refl _)) as [Hi Hs]; [| exact H2 | exact Ef |].
    { intros x y Hxy [->|Hy]; right; [apply tc_one, Hxy | eapply tc_step; eauto]. }
    destruct (sweep_closed edges (fun x => In x U) edges V false W true (incl_refl _))
      as [_ HU]; [| exact H3 | exact Ef |].
    { intros x y Hxy _. right. eapply edge_in_everything_l, Hxy. }
    split; [split; [apply Hi, H1 | split; [exact Hs | exact HU]]|].
    destruct (sweep_added edges V false W Ef eq_refl) as (w & Hw & Hnw & Hw').
    apply unvisited_lt with w; [exact Hi| |exact Hnw|exact Hw'].
    right. apply in_map_iff in Hw as ([a b] & <- & He). apply In_everything.
    exists (mkEdge a b). simpl. auto. }
  assert (Hinit : Inv [id]).
  { split; [left; reflexivity|]. split; [intros x [<-|[]]; left; reflexivity|].
    intros x [<-|[]]. left. reflexivity. }
  destruct (while_loop_terminates (traverse_body Ancestors edges) Inv (unvisited U)
              (fun s s' H1 H2 => proj1 (Hstep s s' H1 H2))
              (fun s s' H1 H2 => proj2 (Hstep s s' H1 H2)) n [id] Hinit) as [V HV].
  { pose proof (unvisited_le U [id]). unfold U in *. simpl in *. lia. }
  exists V. split; [exact HV|].
  refine (while_loop_inv (traverse_body Ancestors edges) Inv
            (fun V => forall v, In v V <-> v = id \/ tc (edge_in edges) v id)
            (fun s s' H1 H2 => proj1 (Hstep s s' H1 H2)) _ n [id] V Hinit HV).
  intros W r (H1 & H2 & H3) H. unfold traverse_body in H.
  destruct (fold_left (sweep_edge Ancestors) edges (W, false)) as [W' b] eqn:Ef.
  destruct b; [discriminate|]. injection H as <-.
  destruct (sweep_unchanged edges W false W' Ef) as (_ & -> & Hc).
  intros v. split; [apply H2|].
  intros [->|Hv]; [exact H1|].
  remember id as z eqn:Hz. revert Hz.
  induction Hv as [x y Hxy|x y z0 Hxy Hyz IH]; intros Hz.
  - subst. apply (Hc (mkEdge _ _) Hxy). exact H1.
  - subst. apply (Hc (mkEdge _ _) Hxy). apply IH; auto.
Qed.

Lemma traverse_web_spec id edges v :
  In v (traverse id edges Web) <->
  v <> id /\ tc (fun x y => edge_in edges x y \/ edge_in edges y x) v id.
Proof.
  assert (Hlen : (Datatypes.S (length (everything (undirected edges))) < fuel edges)%nat).
  { assert (H : (length (everything (undirected edges)) <= length (everything edges))%nat).
    { apply NoDup_incl_length; [apply NoDup_everything|].
      intros x Hx. apply In_everything_undirected, Hx. }
    pose proof (length_everything edges). unfold fuel. nia. }
  destruct (traverse_ancestors_loop_len (undirected edges) id (fuel edges) Hlen) as (V & HV & Hin).
  assert (Hrun : traverse_run id edges Web = Some V).
  { unfold traverse_run. rewrite <- HV. apply while_loop_ext. intros W.
    unfold traverse_body. rewrite fold_sweep_web. reflexivity. }
  unfold traverse, traverse_sweep. rewrite Hrun, In_set_delete, Hin.
  rewrite (tc_iff_ext _ _ v id (edge_in_undirected edges)).
  split; [intros [[H|H] Hne]; [contradiction | auto] | intros [Hne H]; auto].
Qed.

(** [traverse] in each mode: ancestors and descendants give the vertices
    with a non-empty directed path to, resp. from, [id]; web gives the
    vertices connected to [id] when edges are read in both directions; all
    three leave out [id]. Tree gives [id] first, then every ancestor and
    descendant, each once. *)
Theorem traverse_modes_spec (id v : Z) (edges : list DirectedEdge) :
  (In v (traverse id edges Ancestors) <-> v <> id /\ tc (edge_in edges) v id) /\
  (In v (traverse id edges Descendants) <-> v <> id /\ tc (edge_in edges) id v) /\
  (In v (traverse id edges Web) <->
     v <> id /\ tc (fun x y => edge_in edges x y \/ edge_in edges y x) v id) /\
  (In v (traverse id edges Tree) <->
     v = id \/ tc (edge_in edges) v id \/ tc (edge_in edges) id v) /\
  NoDup (traverse id edges Tree) /\ hd_error (traverse id edges Tree) = Some id.
Proof.
  split; [apply traverse_ancestors_spec|]. split; [apply traverse_descendants_spec|].
  split; [apply traverse_web_spec|]. split; [|split].
  - pose proof (traverse_ancestors_spec id edges v) as HA.
    pose proof (traverse_descendants_spec id edges v) as HD.
    unfold traverse in HA, HD |- *. rewrite In_set_of_list, !in_app_iff, HA, HD.
    simpl. destruct (Z.eq_dec v id); intuition.
  - apply NoDup_set_of_list.
  - apply uniqueNumbers_head.
Qed.

Lemma chain_nth edges p i x y :
  chain edges p = true -> nth_error p i = Some x -> nth_error p (Datatypes.S i) = Some y ->
  edge_in edges x y.
Proof.
  revert i. induction p as [|a p IH]; intros i Hc Hx Hy; [destruct i; discriminate|].
  destruct p as [|b p]; [destruct i as [|[|i]]; discriminate|].
  cbn [chain] in Hc. apply andb_true_iff in Hc as [Hab Hc].
  destruct i as [|i].
  - injection Hx as <-. injection Hy as <-. apply has_edge_spec, Hab.
  - exact (IH i Hc Hx Hy).
Qed.

(** [undirected E] holds each edge of [E] and its reverse, [2 |E|] edges in
    all, over the same vertices; in it the children of a vertex are its
    children and parents in [E]. So [dijkstraShortestPath] over
    [undirected E] between connected vertices gives a path whose
    consecutive vertices are joined by an edge of [E] in one direction or
    the other, and no path of [undirected E] is shorter. *)
Theorem undirected_spec (edges : list DirectedEdge) :
  (forall x y, edge_in (undirected edges) x y <-> edge_in edges x y \/ edge_in edges y x) /\
  length (undirected edges) = (2 * length edges)%nat /\
  (forall v, In v (everything (undirected edges)) <-> In v (everything edges)) /\
  (forall x v, In v (children x (undirected edges)) <->
               In v (children x edges) \/ In v (parents x edges)) /\
  (forall s t, (exists m, walk (undirected edges) s t m) ->
     let r := dijkstraShortestPath s t (undirected edges) in
     hd_error r = Some s /\ last r 0 = t /\
     (forall i x y, nth_error r i = Some x -> nth_error r (Datatypes.S i) = Some y ->
        edge_in edges x y \/ edge_in edges y x) /\
     forall q, is_path (undirected edges) s t q -> (length r <= length q)%nat).
Proof.
  split; [apply edge_in_undirected|]. split; [apply length_undirected|].
  split; [intros v; apply In_everything_undirected|]. split.
  { intros x v. rewrite In_children, edge_in_undirected, In_children, In_parents. reflexivity. }
  intros s t [m Hm]. cbv zeta.
  destruct (dijkstraShortestPath_post (undirected edges) s t) as [[_ Hn]|[Hp Hmin]];
    [exfalso; exact (Hn m Hm)|].
  destruct Hp as (Hh & Hl & Hc). split; [exact Hh|]. split; [exact Hl|]. split.
  - intros i x y Hx Hy. apply edge_in_undirected. exact (chain_nth _ _ _ _ _ Hc Hx Hy).
  - intros q Hq. pose proof (Hmin _ (path_walk _ _ _ _ Hq)) as H.
    destruct Hq as [Hq _]. destruct q as [|a q]; [discriminate|]. simpl in H |- *. lia.
Qed.

(** Instance of [undirected_spec] on [[(1,2)]]: the query from 2 to 1 goes
    back along the edge. *)
Lemma undirected_spec_witness :
  dijkstraShortestPath 2 1 (undirected [mkEdge 1 2]) = [2; 1] /\
  last (dijkstraShortestPath 2 1 (undirected [mkEdge 1 2])) 0 = 1.
Proof.
  split; [vm_compute; reflexivity|].
  destruct (undirected_spec [mkEdge 1 2]) as (_ & _ & _ & _ & H).
  refine (proj1 (proj2 (H 2 1 _))).
  exists 1%nat. apply walk_step with 2; [constructor | vm_compute; auto].
Defined.

(** ** [postmanTour] *)

Lemma chain_In_everything edges p a x :
  chain edges (a :: p) = true -> In x (a :: p) -> x = a \/ In x (everything edges).
Proof.
  revert a. induction p as [|b p IH]; intros a Hc Hx; [destruct Hx as [<-|[]]; auto|].
  cbn [chain] in Hc. apply andb_true_iff in Hc as [Hab Hc]. apply has_edge_spec in Hab.
  destruct Hx as [<-|Hx]; [left; reflexivity|]. right.
  destruct (IH b Hc Hx) as [<-|H]; [eapply edge_in_everything_r, Hab | exact H].
Qed.

Lemma dijkstra_In_vertices edges s t x :
  In x (dijkstraShortestPath s t edges) -> x = s \/ In x (everything edges).
Proof.
  intros Hx. destruct (dijkstraShortestPath_post edges s t) as [[H _]|[(Hh & _ & Hc) _]].
  - rewrite H in Hx. destruct Hx.
  - destruct (dijkstraShortestPath s t edges) as [|a p]; [destruct Hx|].
    injection Hh as ->. exact (chain_In_everything edges p s x Hc Hx).
Qed.

(** [postmanTour E] lists once each the vertices of the paths returned by
    [postman E], and all of them are vertices of the graph. *)
Theorem postmanTour_spec (edges : list DirectedEdge) :
  NoDup (postmanTour edges) /\
  (forall v, In v (postmanTour edges) <-> exists p, In p (postman edges) /\ In v p) /\
  (forall v, In v (postmanTour edges) -> In v (everything edges)).
Proof.
  assert (Hin : forall v, In v (postmanTour edges) <-> exists p, In p (postman edges) /\ In v p).
  { intros v. unfold postmanTour, uniqueNumbers. rewrite In_set_of_list, in_concat.
    split; intros (p & H1 & H2); exists p; auto. }
  split; [apply NoDup_set_of_list|]. split; [exact Hin|].
  intros v Hv. apply Hin in Hv as (p & Hp & Hv).
  unfold postman in Hp. apply in_map_iff in Hp as ([a b] & <- & Hab).
  unfold oddPairs in Hab. apply In_pairs in Hab as (_ & Ha & _).
  destruct (dijkstra_In_vertices edges a b v Hv) as [->|H]; [|exact H].
  apply In_oddNodes in Ha as [Ha _]. exact Ha.
Qed.

(** ** [PriorityQueue] *)

Lemma insert_by_distance_last e q :
  (forall f, In f q -> fst f <= fst e) -> insert_by_distance e q = q ++ [e].
Proof.
  induction q as [|f q IH]; intros H; [reflexivity|]. simpl.
  assert (Hf : fst f <= fst e) by (apply H; left; reflexivity).
  destruct (Z.ltb_spec (fst e - fst f) 0) as [Hlt|_]; [lia|].
  rewrite IH; [reflexivity|]. intros g Hg. apply H. right. exact Hg.
Qed.

Lemma sort_by_distance_sorted_id q :
  StronglySorted key_le q -> sort_by_distance q = q.
Proof.
  unfold sort_by_distance.
  assert (H : forall acc, StronglySorted key_le q ->
                (forall f g, In f acc -> In g q -> fst f <= fst g) ->
                fold_left (fun acc e => insert_by_distance e acc) q acc = acc ++ q).
  { induction q as [|x q IH]; intros acc Hs Hle; simpl; [rewrite app_nil_r; reflexivity|].
    apply StronglySorted_inv in Hs as [Hs Hx]. rewrite Forall_forall in Hx.
    rewrite insert_by_distance_last by (intros f Hf; apply Hle; [exact Hf | left; reflexivity]).
    rewrite IH; [rewrite <- app_assoc; reflexivity | exact Hs |].
    intros f g Hf Hg. apply in_app_iff in Hf as [Hf|[<-|[]]].
    - apply Hle; [exact Hf | right; exact Hg].
    - apply (Hx g Hg). }
  intros Hs. apply H; [exact Hs | intros f g []].
Qed.

Lemma insert_by_distance_split e q :
  StronglySorted key_le q ->
  exists l1 l2, q = l1 ++ l2 /\ insert_by_distance e q = l1 ++ e :: l2 /\
    Forall (fun f => fst f <= fst e) l1 /\ Forall (fun f => fst e < fst f) l2.
Proof.
  induction q as [|f q IH]; intros Hs.
  - exists [], []. repeat split; constructor.
  - apply StronglySorted_inv in Hs as [Hs Hf]. simpl.
    destruct (Z.ltb_spec (fst e - fst f) 0) as [Hlt|Hge].
    + exists [], (f :: q). split; [reflexivity|]. split; [reflexivity|]. split; [constructor|].
      constructor; [lia|]. rewrite Forall_forall in Hf |- *. intros g Hg.
      specialize (Hf g Hg). unfold key_le in Hf. lia.
    + destruct (IH Hs) as (l1 & l2 & -> & Hi & H1 & H2).
      exists (f :: l1), l2. split; [reflexivity|]. split; [rewrite Hi; reflexivity|].
      split; [constructor; [lia | exact H1] | exact H2].
Qed.

(** [PriorityQueue] keeps its array sorted by distance. On a sorted queue,
    [enqueue] puts the new entry after every entry of smaller or equal
    distance and before every entry of greater distance, so entries of equal
    distance leave in the order they came ([Array.prototype.sort] is
    stable); [dequeue] returns an entry of least distance, or [undefined] on
    the empty queue. *)
Theorem priority_queue_spec (e : entry) (q : list entry) :
  StronglySorted key_le (enqueue e q) /\
  length (enqueue e q) = Datatypes.S (length q) /\
  (StronglySorted key_le q ->
   exists l1 l2, q = l1 ++ l2 /\ enqueue e q = l1 ++ e :: l2 /\
     Forall (fun f => fst f <= fst e) l1 /\ Forall (fun f => fst e < fst f) l2) /\
  dequeue [] = (None, []) /\
  (StronglySorted key_le q -> forall f q', dequeue q = (Some f, q') ->
     q = f :: q' /\ forall g, In g q -> fst f <= fst g).
Proof.
  split; [apply sort_by_distance_sorted|].
  split; [unfold enqueue; rewrite (Permutation_length (sort_by_distance_perm _)), length_app;
          simpl; lia|].
  split.
  { intros Hs. unfold enqueue, sort_by_distance. rewrite fold_left_app. simpl.
    fold (sort_by_distance q). rewrite sort_by_distance_sorted_id by exact Hs.
    apply insert_by_distance_split, Hs. }
  split; [reflexivity|].
  intros Hs f q' H. destruct q as [|f' q]; [discriminate|]. injection H as -> ->.
  split; [reflexivity|]. intros g Hg.
  destruct Hg as [<-|Hg]; [lia|].
  apply StronglySorted_inv in Hs as [_ Hf]. rewrite Forall_forall in Hf. apply (Hf g Hg).
Qed.

(** Instance of [priority_queue_spec]: entering distance 1 into
    [[(0,[1]); (1,[2]); (2,[3])]] puts it after the entry of distance 1
    already there. *)
Lemma priority_queue_spec_witness :
  StronglySorted key_le [(0, [1]); (1, [2]); (2, [3])] /\
  enqueue (1, [4]) [(0, [1]); (1, [2]); (2, [3])] = [(0, [1]); (1, [2]); (1, [4]); (2, [3])] /\
  exists l1 l2, [(0, [1]); (1, [2]); (2, [3])] = l1 ++ l2 /\
    enqueue (1, [4]) [(0, [1]); (1, [2]); (2, [3])] = l1 ++ (1, [4]) :: l2.
Proof.
  assert (Hs : StronglySorted key_le [(0, [1]); (1, [2]); (2, [3])]).
  { repeat constructor; unfold key_le; simpl; lia. }
  split; [exact Hs|]. split; [vm_compute; reflexivity|].
  destruct (priority_queue_spec (1, [4]) [(0, [1]); (1, [2]); (2, [3])]) as (_ & _ & H & _).
  destruct (H Hs) as (l1 & l2 & H1 & H2 & _). exists l1, l2. split; assumption.
Defined.

(** ** [shortestPath] of search.ts *)

Lemma StronglySorted_app_cross {A : Type} (R : A -> A -> Prop) l1 l2 :
  StronglySorted R l1 -> StronglySorted R l2 ->
  (forall x y, In x l1 -> In y l2 -> R x y) -> StronglySorted R (l1 ++ l2).
Proof.
  induction l1 as [|x l1 IH]; intros H1 H2 H; simpl; [exact H2|].
  apply StronglySorted_inv in H1 as [H1 Hx]. constructor.
  - apply IH; [exact H1 | exact H2 |]. intros a b Ha Hb. apply H; [right|]; assumption.
  - apply Forall_forall. intros y Hy. apply in_app_iff in Hy as [Hy|Hy].
    + rewrite Forall_forall in Hx. apply Hx, Hy.
    + apply H; [left; reflexivity | exact Hy].
Qed.

Lemma StronglySorted_same_length (l : list (Z * list Z)) k :
  (forall x, In x l -> length (snd x) = k) -> StronglySorted path_len_le l.
Proof.
  induction l as [|x l IH]; intros H; constructor.
  - apply IH. intros y Hy. apply H. right. exact Hy.
  - apply Forall_forall. intros y Hy. unfold path_len_le.
    rewrite (H x (or_introl eq_refl)), (H y (or_intror Hy)). lia.
Qed.

Section ShortestPath.
Variable edges : list DirectedEdge.
Variables s t : Z.

Local Abbreviation inv := (sp_inv edges s t).
Local Abbreviation measure := (sp_measure edges s).

Lemma sp_reach queue visited v m :
  inv (queue, visited) -> walk edges s v m -> ~ In v visited ->
  exists w p, In (w, p) queue /\ (length p <= Datatypes.S m)%nat.
Proof.
  intros (S1 & S2 & S3 & S4 & S5 & S6 & S7) Hw.
  induction Hw as [|u v m Hw IH Huv]; intros Hv.
  - destruct S5 as [H|H]; [contradiction|]. exists s, [s]. split; [exact H | simpl; lia].
  - destruct (in_dec Z.eq_dec u visited) as [Hu|Hu].
    + destruct (S6 u v m Hu Huv Hv Hw) as (p & Hp & Hle). exists v, p. split; [exact Hp | lia].
    + destruct (IH Hu) as (w & p & Hp & Hle). exists w, p. split; [exact Hp | lia].
Qed.

Lemma sp_head_minimal v p rest visited m :
  inv ((v, p) :: rest, visited) -> ~ In v visited -> walk edges s v m ->
  (length p <= Datatypes.S m)%nat.
Proof.
  intros Hinv Hn Hw.
  destruct (sp_reach _ _ _ _ Hinv Hw Hn) as (w & p' & Hp' & Hle).
  destruct Hinv as (_ & S2 & _).
  destruct Hp' as [H|H]; [injection H as _ ->; exact Hle|].
  apply StronglySorted_inv in S2 as [_ Hf]. rewrite Forall_forall in Hf.
  specialize (Hf _ H). unfold path_len_le in Hf. simpl in Hf. lia.
Qed.

Lemma sp_init : inv ([(s, [s])], []).
Proof.
  split; [|split; [|split; [|split; [|split; [|split]]]]].
  - intros v p [H|[]]. injection H as <- <-. simpl. auto.
  - constructor; constructor.
  - intros a b [<-|[]] [<-|[]]. simpl. lia.
  - intros [].
  - right. left. reflexivity.
  - intros v c m [].
  - intros x [].
Qed.

Lemma sp_step st st' :
  inv st -> SearchTs.shortestPath_body t edges st = Continue st' ->
  inv st' /\ (measure st' < measure st)%nat.
Proof.
  destruct st as [queue visited].
  intros Hinv H. pose proof Hinv as (S1 & S2 & S3 & S4 & S5 & S6 & S7).
  destruct queue as [|[id path] rest]; simpl in H; [discriminate|].
  destruct (S1 id path (or_introl eq_refl)) as (Hh & Hc & Hl & HU).
  destruct (set_has id visited) eqn:Ev.
  - (* already visited: the entry is dropped *)
    injection H as <-. apply set_has_In in Ev. split; [|simpl; lia].
    split; [|split; [|split; [|split; [|split; [|split]]]]].
    + intros v p Hp. apply S1. right. exact Hp.
    + apply StronglySorted_inv in S2 as [S2 _]. exact S2.
    + intros a b Ha Hb. apply S3; right; assumption.
    + exact S4.
    + destruct S5 as [Hs|[Hs|Hs]]; [left; exact Hs| |right; exact Hs].
      injection Hs as -> _. left. exact Ev.
    + intros v c m Hv Hvc Hc' Hw.
      destruct (S6 v c m Hv Hvc Hc' Hw) as (p & [Hp|Hp] & Hle).
      * injection Hp as -> _. contradiction.
      * exists p. auto.
    + exact S7.
  - apply set_has_false in Ev.
    destruct (Z.eqb id t) eqn:Et; [discriminate|]. apply Z.eqb_neq in Et.
    injection H as <-.
    set (cs := SearchTs.children id edges).
    set (new := map (fun child => (child, path ++ [child])) cs).
    assert (Hnew : forall x, In x new <-> exists c, In c cs /\ x = (c, path ++ [c])).
    { intros x. unfold new. rewrite in_map_iff. split; intros (c & H1 & H2); exists c; auto. }
    assert (Hnewlen : forall x, In x new -> length (snd x) = Datatypes.S (length path)).
    { intros x Hx. apply Hnew in Hx as (c & _ & ->). simpl. rewrite length_app. simpl. lia. }
    assert (Hrest_ge : forall x, In x rest -> (length path <= length (snd x))%nat).
    { intros x Hx. apply StronglySorted_inv in S2 as [_ Hf]. rewrite Forall_forall in Hf.
      apply (Hf x Hx). }
    assert (Hrest_le : forall x, In x rest -> (length (snd x) <= Datatypes.S (length path))%nat).
    { intros x Hx. apply (S3 (id, path) x (or_introl eq_refl) (or_intror Hx)). }
    assert (Hpne : path <> []) by (intros ->; discriminate).
    assert (Hvis : forall x, In x (set_add id visited) <-> x = id \/ In x visited)
      by (intros; apply In_set_add).
    split.
    + split; [|split; [|split; [|split; [|split; [|split]]]]].
      * intros v p Hp. apply in_app_iff in Hp as [Hp|Hp]; [apply S1; right; exact Hp|].
        apply Hnew in Hp as (c & Hcs & Hx). injection Hx as -> ->.
        apply SearchTs_In_children in Hcs.
        split; [destruct path; [contradiction | exact Hh]|].
        split; [apply chain_snoc; [exact Hpne | exact Hc | rewrite Hl; exact Hcs]|].
        split; [apply last_last|]. right. eapply edge_in_everything_r, Hcs.
      * apply StronglySorted_app_cross.
        -- apply StronglySorted_inv in S2 as [S2 _]. exact S2.
        -- apply (StronglySorted_same_length new (Datatypes.S (length path)) Hnewlen).
        -- intros x y Hx Hy. unfold path_len_le. rewrite (Hnewlen y Hy). apply Hrest_le, Hx.
      * intros a b Ha Hb. apply in_app_iff in Ha as [Ha|Ha], Hb as [Hb|Hb].
        -- apply S3; right; assumption.
        -- rewrite (Hnewlen b Hb). specialize (Hrest_ge a Ha). lia.
        -- rewrite (Hnewlen a Ha). specialize (Hrest_le b Hb). lia.
        -- rewrite (Hnewlen a Ha), (Hnewlen b Hb). lia.
      * intros Ht. apply Hvis in Ht as [Ht|Ht]; [apply Et; symmetry; exact Ht | contradiction].
      * destruct S5 as [Hs|[Hs|Hs]].
        -- left. apply Hvis. auto.
        -- injection Hs as -> _. left. apply Hvis. left. reflexivity.
        -- right. apply in_app_iff. left. exact Hs.
      * intros v c m Hv Hvc Hc' Hw.
        assert (Hcv : ~ In c visited) by (intros H; apply Hc', Hvis; auto).
        apply Hvis in Hv as [->|Hv].
        -- exists (path ++ [c]). split.
           ++ apply in_app_iff. right. apply Hnew. exists c. split; [apply SearchTs_In_children, Hvc | reflexivity].
           ++ rewrite length_app. simpl.
              pose proof (sp_head_minimal id path rest visited m Hinv Ev Hw). lia.
        -- destruct (S6 v c m Hv Hvc Hcv Hw) as (p & [Hp|Hp] & Hle).
           ++ injection Hp as -> _. exfalso. apply Hc', Hvis. left. reflexivity.
           ++ exists p. split; [apply in_app_iff; left; exact Hp | exact Hle].
      * intros x Hx. apply Hvis in Hx as [->|Hx]; [rewrite <- Hl; rewrite Hl; exact HU | apply S7, Hx].
    + simpl. rewrite length_app. unfold new. rewrite length_map.
      assert (Hcs : (length cs <= length edges)%nat) by apply length_SearchTs_children.
      assert (Hlt : (unvisited (s :: everything edges) (set_add id visited)
                     < unvisited (s :: everything edges) visited)%nat).
      { apply unvisited_lt with id; [apply incl_set_add | exact HU | exact Ev | apply Hvis; auto]. }
      nia.
Qed.

Lemma sp_break st r :
  inv st -> SearchTs.shortestPath_body t edges st = Break r -> dj_post edges s t r.
Proof.
  destruct st as [queue visited].
  intros Hinv H. pose proof Hinv as (S1 & S2 & S3 & S4 & S5 & S6 & S7).
  destruct queue as [|[id path] rest]; simpl in H.
  - injection H as <-. left. split; [reflexivity|].
    intros m Hw. destruct (sp_reach _ _ _ _ Hinv Hw S4) as (w & p & [] & _).
  - destruct (set_has id visited) eqn:Ev; [discriminate|].
    destruct (Z.eqb id t) eqn:Et; [|discriminate].
    injection H as <-. apply Z.eqb_eq in Et. subst id. apply set_has_false in Ev.
    destruct (S1 t path (or_introl eq_refl)) as (Hh & Hc & Hl & _).
    right. split; [split; [exact Hh | split; [exact Hl | exact Hc]]|].
    intros m Hw. exact (sp_head_minimal t path rest visited m Hinv Ev Hw).
Qed.

End ShortestPath.

Lemma shortestPath_run_post edges s t :
  exists r, SearchTs.shortestPath_run s t edges = Some r /\ dj_post edges s t r.
Proof.
  assert (Hinit := sp_init edges s t).
  assert (Hmu : (sp_measure edges s ([(s, [s])], []) < fuel edges)%nat).
  { change (sp_measure edges s ([(s, [s])], []))
      with (unvisited (s :: everything edges) [] * (length edges + 1) + 1)%nat.
    pose proof (unvisited_le (s :: everything edges) []) as H1.
    pose proof (length_everything edges) as H2. simpl length in H1.
    assert (unvisited (s :: everything edges) [] * (length edges + 1)
            <= (2 * length edges + 1) * (length edges + 1))%nat by nia.
    unfold fuel. lia. }
  destruct (while_loop_terminates (SearchTs.shortestPath_body t edges) (sp_inv edges s t)
              (sp_measure edges s)
              (fun st st' Hi He => proj1 (sp_step edges s t st st' Hi He))
              (fun st st' Hi He => proj2 (sp_step edges s t st st' Hi He))
              (fuel edges) _ Hinit Hmu) as [r Hr].
  exists r. split; [exact Hr|].
  exact (while_loop_inv (SearchTs.shortestPath_body t edges) (sp_inv edges s t) (dj_post edges s t)
           (fun st st' Hi He => proj1 (sp_step edges s t st st' Hi He))
           (sp_break edges s t) (fuel edges) _ r Hinit Hr).
Qed.

Lemma shortestPath_post edges s t : dj_post edges s t (SearchTs.shortestPath s t edges).
Proof.
  destruct (shortestPath_run_post edges s t) as (r & Hr & Hp).
  unfold SearchTs.shortestPath. rewrite Hr. exact Hp.
Qed.

(** [shortestPath] of search.ts (breadth-first, with a plain FIFO queue):
    when [end_] is reachable from [start] it returns a directed path from
    [start] to [end_] with no more vertices than any other; otherwise the
    empty sequence; from a vertex to itself it returns [[start]]. It always
    returns a path of the same length as [dijkstraShortestPath]. *)
Theorem shortestPath_spec (start end_ a : Z) (edges : list DirectedEdge) :
  ((exists q, is_path edges start end_ q) ->
   is_path edges start end_ (SearchTs.shortestPath start end_ edges) /\
   forall q, is_path edges start end_ q ->
     (length (SearchTs.shortestPath start end_ edges) <= length q)%nat) /\
  ((forall q, ~ is_path edges start end_ q) -> SearchTs.shortestPath start end_ edges = []) /\
  SearchTs.shortestPath a a edges = [a] /\
  length (SearchTs.shortestPath start end_ edges) =
  length (dijkstraShortestPath start end_ edges).
Proof.
  assert (Hlen : forall (r q : list Z), (forall m, walk edges start end_ m -> (length r <= Datatypes.S m)%nat) ->
                   is_path edges start end_ q -> (length r <= length q)%nat).
  { intros r q Hmin Hq. pose proof (Hmin _ (path_walk _ _ _ _ Hq)) as H.
    destruct Hq as [Hq _]. destruct q as [|x q]; [discriminate|]. simpl in H |- *. lia. }
  pose proof (shortestPath_post edges start end_) as HS.
  pose proof (dijkstraShortestPath_post edges start end_) as HD.
  split; [|split; [|split]].
  - intros [q0 Hq0]. destruct HS as [[_ Hn]|[Hp Hmin]].
    + exfalso. exact (Hn _ (path_walk _ _ _ _ Hq0)).
    + split; [exact Hp|]. intros q Hq. apply Hlen; assumption.
  - intros Hn. destruct HS as [[H _]|[Hp _]]; [exact H|]. exfalso. exact (Hn _ Hp).
  - unfold SearchTs.shortestPath, SearchTs.shortestPath_run. rewrite fuel_SS. simpl.
    rewrite Z.eqb_refl. reflexivity.
  - destruct HS as [[HS Hn]|[HpS HminS]], HD as [[HD Hn']|[HpD HminD]].
    + rewrite HS, HD. reflexivity.
    + exfalso. exact (Hn _ (path_walk _ _ _ _ HpD)).
    + exfalso. exact (Hn' _ (path_walk _ _ _ _ HpS)).
    + apply Nat.le_antisymm; apply Hlen; assumption.
Qed.

(** Instance of [shortestPath_spec] on [(1,2),(2,3),(1,4)]: from 1 to 3 it
    returns [[1;2;3]]. *)
Lemma shortestPath_spec_witness :
  is_path [mkEdge 1 2; mkEdge 2 3; mkEdge 1 4] 1 3
    (SearchTs.shortestPath 1 3 [mkEdge 1 2; mkEdge 2 3; mkEdge 1 4]) /\
  SearchTs.shortestPath 1 3 [mkEdge 1 2; mkEdge 2 3; mkEdge 1 4] = [1; 2; 3] /\
  SearchTs.shortestPath 3 1 [mkEdge 1 2; mkEdge 2 3; mkEdge 1 4] = [].
Proof.
  split; [|split; vm_compute; reflexivity].
  apply (proj1 (shortestPath_spec 1 3 1 [mkEdge 1 2; mkEdge 2 3; mkEdge 1 4])).
  exists [1; 2; 3]. vm_compute. split; [reflexivity | split; reflexivity].
Defined.

(** ** The recursive [ancestors] and [descendants] of search.ts *)

Lemma SearchTs_In_parents v id edges :
  In v (SearchTs.parents id edges) <-> edge_in edges v id.
Proof.
  unfold SearchTs.parents, edge_in. rewrite in_map_iff. split.
  - intros (e & <- & He). apply filter_In in He as [He Ht]. apply Z.eqb_eq in Ht.
    destruct e as [a b]. simpl in *. subst. exact He.
  - intros H. exists (mkEdge v id). split; [reflexivity|]. apply filter_In.
    split; [exact H | apply Z.eqb_refl].
Qed.

Lemma flat_map_opt_Some (g : Z -> option (list Z)) l r :
  SearchTs.flat_map_opt g l = Some r ->
  (forall x, In x l -> exists rx, g x = Some rx) /\
  (forall v, In v r <-> exists x rx, In x l /\ g x = Some rx /\ In v rx).
Proof.
  revert r. induction l as [|x l IH]; intros r H; simpl in H.
  - injection H as <-. split; [intros x []|]. intros v. split; [intros []|].
    intros (x & rx & [] & _).
  - destruct (g x) as [a|] eqn:Hg; [|discriminate].
    destruct (SearchTs.flat_map_opt g l) as [b|] eqn:Hl; [|discriminate].
    injection H as <-. destruct (IH b eq_refl) as [H1 H2]. split.
    + intros y [<-|Hy]; [exists a; exact Hg | apply H1, Hy].
    + intros v. rewrite in_app_iff, H2. split.
      * intros [Hv|(y & ry & Hy & Hgy & Hv)].
        -- exists x, a. split; [left; reflexivity | split; assumption].
        -- exists y, ry. split; [right; exact Hy | split; assumption].
      * intros (y & ry & [<-|Hy] & Hgy & Hv).
        -- left. rewrite Hg in Hgy. injection Hgy as <-. exact Hv.
        -- right. exists y, ry. split; [exact Hy | split; assumption].
Qed.

Lemma flat_map_opt_None (g : Z -> option (list Z)) l x :
  In x l -> g x = None -> SearchTs.flat_map_opt g l = None.
Proof.
  induction l as [|y l IH]; intros Hx Hg; [destruct Hx|]. simpl.
  destruct Hx as [<-|Hx]; [rewrite Hg; reflexivity|].
  rewrite (IH Hx Hg). destruct (g y); reflexivity.
Qed.

Lemma flat_map_opt_ext (g1 g2 : Z -> option (list Z)) l :
  (forall x, g1 x = g2 x) -> SearchTs.flat_map_opt g1 l = SearchTs.flat_map_opt g2 l.
Proof. intros H. induction l as [|x l IH]; simpl; [reflexivity|]. rewrite H, IH. reflexivity. Qed.

Lemma tc_last_step (R : Z -> Z -> Prop) x z :
  tc R x z -> R x z \/ exists y, tc R x y /\ R y z.
Proof.
  induction 1 as [x y H|x y z H1 H2 IH]; [left; exact H|].
  right. destruct IH as [H|(w & Hw & Hwz)].
  - exists y. split; [apply tc_one, H1 | exact H].
  - exists w. split; [eapply tc_step; eauto | exact Hwz].
Qed.

Lemma ancestors_rec_sound n id edges r :
  SearchTs.ancestors_rec n id edges = Some r ->
  forall v, In v r <-> tc (edge_in edges) v id.
Proof.
  revert id r. induction n as [|n IH]; intros id r H; [discriminate|]. simpl in H.
  destruct (SearchTs.flat_map_opt (fun parent => SearchTs.ancestors_rec n parent edges)
              (SearchTs.parents id edges)) as [l|] eqn:Hl; [|discriminate].
  injection H as <-. destruct (flat_map_opt_Some _ _ _ Hl) as [Hall Hin].
  intros v. rewrite in_app_iff, Hin, SearchTs_In_parents. split.
  - intros [Hv|(p & rp & Hp & Hr & Hv)]; [apply tc_one, Hv|].
    apply SearchTs_In_parents in Hp. apply (IH p rp Hr) in Hv. eapply tc_snoc; eauto.
  - intros Hv. apply tc_last_step in Hv as [Hv|(p & Hvp & Hp)]; [left; exact Hv|].
    right. apply (proj2 (SearchTs_In_parents p id edges)) in Hp.
    destruct (Hall p Hp) as [rp Hr]. exists p, rp. split; [exact Hp|]. split; [exact Hr|].
    apply (IH p rp Hr), Hvp.
Qed.

Lemma ancestors_rec_cycle n id edges :
  (exists w, tc (edge_in edges) w w /\ tc (edge_in edges) w id) ->
  SearchTs.ancestors_rec n id edges = None.
Proof.
  revert id. induction n as [|n IH]; intros id (w & Hww & Hwid); [reflexivity|]. simpl.
  assert (Hp : exists p, In p (SearchTs.parents id edges) /\
                         exists w, tc (edge_in edges) w w /\ tc (edge_in edges) w p).
  { apply tc_last_step in Hwid as [H|(y & Hwy & Hy)].
    - exists w. split; [apply SearchTs_In_parents, H | exists w; auto].
    - exists y. split; [apply SearchTs_In_parents, Hy | exists w; auto]. }
  destruct Hp as (p & Hp & Hcyc).
  rewrite (flat_map_opt_None _ _ p Hp (IH p Hcyc)). reflexivity.
Qed.

Lemma SearchTs_children_flip id edges :
  SearchTs.children id edges = SearchTs.parents id (flip_edges edges).
Proof.
  unfold SearchTs.children, SearchTs.parents, flip_edges.
  induction edges as [|e edges IH]; simpl; [reflexivity|].
  destruct (Z.eqb (source e) id); simpl; rewrite IH; reflexivity.
Qed.

Lemma descendants_rec_flip n id edges :
  SearchTs.descendants_rec n id edges = SearchTs.ancestors_rec n id (flip_edges edges).
Proof.
  revert id. induction n as [|n IH]; intros id; [reflexivity|]. simpl.
  rewrite SearchTs_children_flip. rewrite (flat_map_opt_ext _ _ _ IH). reflexivity.
Qed.

(** The recursive [ancestors] and [descendants] of search.ts have no
    visited set. Whenever the recursion finishes (within its call depth),
    the values it returns are exactly the vertices with a non-empty directed
    path to, resp. from, [id]. But if some vertex on a directed cycle has a
    path to [id] (for [ancestors]), resp. is reached by one from [id] (for
    [descendants]), the recursion never finishes, at any call depth. *)
Theorem search_recursive_queries (id : Z) (edges : list DirectedEdge) :
  (forall n r, SearchTs.ancestors_rec n id edges = Some r ->
     forall v, In v r <-> tc (edge_in edges) v id) /\
  (forall n r, SearchTs.descendants_rec n id edges = Some r ->
     forall v, In v r <-> tc (edge_in edges) id v) /\
  ((exists w, tc (edge_in edges) w w /\ tc (edge_in edges) w id) ->
     forall n, SearchTs.ancestors_rec n id edges = None) /\
  ((exists w, tc (edge_in edges) w w /\ tc (edge_in edges) id w) ->
     forall n, SearchTs.descendants_rec n id edges = None).
Proof.
  assert (Hflip : forall x y, tc (edge_in (flip_edges edges)) x y <-> tc (edge_in edges) y x).
  { intros x y. rewrite (tc_iff_ext _ (fun a b => edge_in edges b a) x y (edge_in_flip edges)).
    apply tc_flip_iff. }
  split; [intros n r; apply ancestors_rec_sound|]. split; [|split].
  - intros n r H v. rewrite descendants_rec_flip in H. rewrite (ancestors_rec_sound _ _ _ _ H v).
    apply Hflip.
  - intros Hc n. apply ancestors_rec_cycle, Hc.
  - intros (w & Hww & Hw) n. rewrite descendants_rec_flip. apply ancestors_rec_cycle.
    exists w. split; apply Hflip; assumption.
Qed.

(** Instance of [search_recursive_queries]: on the path [(1,2),(2,3)]
    [ancestors 3] finishes with [[2;1]]; on the self-loop [(1,1)] it never
    does. *)
Lemma search_recursive_queries_witness :
  SearchTs.ancestors_rec 3 3 [mkEdge 1 2; mkEdge 2 3] = Some [2; 1] /\
  tc (edge_in [mkEdge 1 2; mkEdge 2 3]) 1 3 /\
  SearchTs.ancestors_rec 100 1 [mkEdge 1 1] = None.
Proof.
  assert (H : SearchTs.ancestors_rec 3 3 [mkEdge 1 2; mkEdge 2 3] = Some [2; 1])
    by (vm_compute; reflexivity).
  split; [exact H|]. split.
  - destruct (search_recursive_queries 3 [mkEdge 1 2; mkEdge 2 3]) as (Ha & _).
    apply (Ha 3%nat [2; 1] H). right. left. reflexivity.
  - destruct (search_recursive_queries 1 [mkEdge 1 1]) as (_ & _ & Hc & _).
    apply Hc. exists 1. split; apply tc_one; left; reflexivity.
Defined.

(** ** Shape of the search.ts traversals *)

Lemma visit_loop_head edges push start n r :
  while_loop (SearchTs.visit_body edges push) n ([start], [], []) = Some r ->
  exists tl, r = start :: tl.
Proof.
  destruct n as [|n]; intros H; [discriminate|]. simpl in H.
  refine (while_loop_inv (SearchTs.visit_body edges push)
            (fun st => exists tl, snd st = start :: tl) (fun r => exists tl, r = start :: tl)
            _ _ n _ r _ H).
  - intros [[work visited] result] st' [tl Htl] He. simpl in Htl, He.
    destruct work as [|c rest]; [discriminate|].
    destruct (set_has c visited); injection He as <-; simpl.
    + exists tl. exact Htl.
    + exists (tl ++ [c]). rewrite Htl. reflexivity.
  - intros [[work visited] result] r' [tl Htl] He. simpl in Htl, He.
    destruct work as [|c rest]; [|destruct (set_has c visited); discriminate].
    injection He as <-. exists tl. exact Htl.
  - exists []. reflexivity.
Qed.

Lemma dfs_loop_head edges maxDepth start n r :
  while_loop (SearchTs.dfs_body edges maxDepth) n ([(start, 0%Z)], [], []) = Some r ->
  exists tl, r = start :: tl.
Proof.
  destruct n as [|n]; intros H; [discriminate|]. simpl in H.
  refine (while_loop_inv (SearchTs.dfs_body edges maxDepth)
            (fun st => exists tl, snd st = start :: tl) (fun r => exists tl, r = start :: tl)
            _ _ n _ r _ H).
  - intros [[stack visited] result] st' [tl Htl] He. simpl in Htl, He.
    destruct stack as [|[c d] rest]; [discriminate|].
    destruct (set_has c visited); injection He as <-; simpl.
    + exists tl. exact Htl.
    + exists (tl ++ [c]). rewrite Htl. reflexivity.
  - intros [[stack visited] result] r' [tl Htl] He. simpl in Htl, He.
    destruct stack as [|[c d] rest]; [|destruct (set_has c visited); discriminate].
    injection He as <-. exists tl. exact Htl.
  - exists []. reflexivity.
Qed.

Lemma maze_push_In (x : Z) cs rest : In x (rev cs ++ rest) <-> In x cs \/ In x rest.
Proof. rewrite in_app_iff, <- in_rev. reflexivity. Qed.

Lemma maze_push_len (cs rest : list Z) : length (rev cs ++ rest) = (length cs + length rest)%nat.
Proof. rewrite length_app, length_rev. reflexivity. Qed.

Section DfsMaze.
Variable edges : list DirectedEdge.
Variables start maxDepth : Z.
Hypothesis Hmax : Z.of_nat (length (start :: everything edges)) <= maxDepth.

Local Abbreviation mbody := (SearchTs.visit_body edges (fun cs rest => rev cs ++ rest)).
Local Abbreviation dbody := (SearchTs.dfs_body edges maxDepth).

Lemma dfs_maze_step sd sm :
  dfs_maze_rel edges start sd sm ->
  (exists r, dbody sd = Break r /\ mbody sm = Break r) \/
  (exists sd' sm', dbody sd = Continue sd' /\ mbody sm = Continue sm' /\
                   dfs_maze_rel edges start sd' sm').
Proof.
  destruct sd as [[stack vd] rd], sm as [[work vm] rm].
  intros (Hw & <- & <- & Hd & Hinv). subst work.
  destruct stack as [|[id d] rest].
  - left. exists rd. split; reflexivity.
  - right. destruct (set_has id vd) eqn:Hh.
    + assert (He : mbody (map fst ((id, d) :: rest), vd, rd) = Continue (map fst rest, vd, rd))
        by (simpl; rewrite Hh; reflexivity).
      exists (rest, vd, rd), (map fst rest, vd, rd).
      split; [simpl; rewrite Hh; reflexivity|]. split; [exact He|].
      split; [reflexivity|]. split; [reflexivity|]. split; [reflexivity|].
      split; [intros v d' Hv; apply (Hd v d'); right; exact Hv|].
      exact (proj1 (vis_step edges start _ maze_push_In maze_push_len _ _ Hinv He)).
    + set (cs := SearchTs.children id edges).
      assert (He : mbody (map fst ((id, d) :: rest), vd, rd) =
                   Continue (rev cs ++ map fst rest, set_add id vd, rd ++ [id]))
        by (simpl; rewrite Hh; reflexivity).
      assert (Hlt : (d <? maxDepth) = true).
      { apply Z.ltb_lt. pose proof (Hd id d (or_introl eq_refl)) as Hdl.
        unfold vis_inv in Hinv. destruct Hinv as (_ & Hnd & _ & _ & _ & Hsub).
        assert (Hid : In id (start :: everything edges)) by (apply Hsub; left; left; reflexivity).
        assert (Hn : ~ In id vd) by (apply set_has_false; exact Hh).
        assert (Hl : (length (id :: vd) <= length (start :: everything edges))%nat).
        { apply NoDup_incl_length; [constructor; assumption|].
          intros x [<-|Hx]; [exact Hid | apply Hsub; right; exact Hx]. }
        pose proof Hmax as Hm. simpl length in Hl, Hm. lia. }
      exists (rev (map (fun child => (child, d + 1)) cs) ++ rest, set_add id vd, rd ++ [id]),
             (rev cs ++ map fst rest, set_add id vd, rd ++ [id]).
      split; [simpl; rewrite Hh, Hlt; reflexivity|]. split; [exact He|].
      split.
      * rewrite map_app, map_rev, map_map. simpl. rewrite map_id. reflexivity.
      * split; [reflexivity|]. split; [reflexivity|].
        split; [|exact (proj1 (vis_step edges start _ maze_push_In maze_push_len _ _ Hinv He))].
        rewrite (set_add_new _ _ Hh), length_app. simpl length.
        intros v d' Hv. apply in_app_iff in Hv as [Hv|Hv].
        -- apply in_rev, in_map_iff in Hv as (c & Hc & _). injection Hc as <- <-.
           pose proof (Hd id d (or_introl (eq_refl (id, d)))). lia.
        -- pose proof (Hd v d' (or_intror Hv)). lia.
Qed.

Lemma dfs_maze_loop n sd sm :
  dfs_maze_rel edges start sd sm -> while_loop dbody n sd = while_loop mbody n sm.
Proof.
  revert sd sm. induction n as [|n IH]; intros sd sm Hr; [reflexivity|]. simpl.
  destruct (dfs_maze_step sd sm Hr) as [(r & H1 & H2)|(sd' & sm' & H1 & H2 & H3)].
  - rewrite H1, H2. reflexivity.
  - rewrite H1, H2. apply IH, H3.
Qed.

Lemma dfs_eq_maze : SearchTs.dfs start edges maxDepth = SearchTs.maze start edges.
Proof.
  unfold SearchTs.dfs, SearchTs.dfs_run, SearchTs.maze, SearchTs.maze_run.
  rewrite (dfs_maze_loop (fuel edges) _ ([start], [], [])); [reflexivity|].
  split; [reflexivity|]. split; [reflexivity|]. split; [reflexivity|].
  split; [intros v d [Hv|[]]; injection Hv as <- <-; simpl; lia|].
  apply (vis_init edges start).
Qed.

End DfsMaze.



(** ** The non-recursive queries of search.ts built on [ancestors] and [descendants] *)

Lemma SearchTs_In_siblings v id edges :
  In v (SearchTs.siblings id edges) <->
  v <> id /\ exists p, edge_in edges p id /\ edge_in edges p v.
Proof.
  unfold SearchTs.siblings. rewrite filter_In, in_flat_map, negb_true_iff, Z.eqb_neq.
  split.
  - intros ((p & Hp & Hv) & Hne). split; [exact Hne|]. exists p.
    split; [apply SearchTs_In_parents, Hp | apply SearchTs_In_children, Hv].
  - intros (Hne & p & Hp & Hv). split; [|exact Hne]. exists p.
    split; [apply SearchTs_In_parents, Hp | apply SearchTs_In_children, Hv].
Qed.

Lemma descendants_rec_sound n id edges r :
  SearchTs.descendants_rec n id edges = Some r ->
  forall v, In v r <-> tc (edge_in edges) id v.
Proof.
  intros H v. rewrite descendants_rec_flip in H. rewrite (ancestors_rec_sound _ _ _ _ H v).
  rewrite (tc_iff_ext _ (fun a b => edge_in edges b a) v id (edge_in_flip edges)).
  apply tc_flip_iff.
Qed.

(** [siblings], [cousins], [related], [relatedAndSelf], [descendantsAndSelf]
    and [parentsAndSelf] of search.ts. A sibling of [id] is a vertex other
    than [id] that shares a parent with it; [parentsAndSelf] is [id] and
    its parents. Whenever the recursive calls finish, [cousins] returns the
    vertices reached by a non-empty directed path from a sibling, [related]
    the ancestors and descendants, [relatedAndSelf] these and [id] (last),
    and [descendantsAndSelf] [id] (first) and the descendants. *)
Theorem search_derived_queries (id v : Z) (edges : list DirectedEdge) :
  (In v (SearchTs.siblings id edges) <->
     v <> id /\ exists p, edge_in edges p id /\ edge_in edges p v) /\
  (In v (SearchTs.parentsAndSelf id edges) <-> v = id \/ edge_in edges v id) /\
  (forall n r, SearchTs.cousins_rec n id edges = Some r ->
     (In v r <-> exists s, In s (SearchTs.siblings id edges) /\ tc (edge_in edges) s v)) /\
  (forall n r, SearchTs.related_rec n id edges = Some r ->
     (In v r <-> tc (edge_in edges) v id \/ tc (edge_in edges) id v)) /\
  (forall n r, SearchTs.relatedAndSelf_rec n id edges = Some r ->
     (In v r <-> tc (edge_in edges) v id \/ tc (edge_in edges) id v \/ v = id) /\
     last r 0 = id) /\
  (forall n r, SearchTs.descendantsAndSelf_rec n id edges = Some r ->
     hd_error r = Some id /\ (In v r <-> v = id \/ tc (edge_in edges) id v)).
Proof.
  assert (Hrel : forall n r, SearchTs.related_rec n id edges = Some r ->
     forall v, In v r <-> tc (edge_in edges) v id \/ tc (edge_in edges) id v).
  { intros n r H w. unfold SearchTs.related_rec in H.
    destruct (SearchTs.ancestors_rec n id edges) as [a|] eqn:Ha; [|discriminate].
    destruct (SearchTs.descendants_rec n id edges) as [d|] eqn:Hd; [|discriminate].
    injection H as <-. rewrite in_app_iff, (ancestors_rec_sound _ _ _ _ Ha w),
      (descendants_rec_sound _ _ _ _ Hd w). reflexivity. }
  split; [apply SearchTs_In_siblings|].
  split; [unfold SearchTs.parentsAndSelf; simpl; rewrite SearchTs_In_parents;
          split; intros [H|H]; auto|].
  split; [|split; [exact (fun n r H => Hrel n r H v)|split]].
  - intros n r H. unfold SearchTs.cousins_rec in H.
    destruct (flat_map_opt_Some _ _ _ H) as [Hall Hin]. rewrite Hin. split.
    + intros (s & rs & Hs & Hr & Hv). exists s. split; [exact Hs|].
      apply (descendants_rec_sound _ _ _ _ Hr v), Hv.
    + intros (s & Hs & Hv). destruct (Hall s Hs) as [rs Hr]. exists s, rs.
      split; [exact Hs|]. split; [exact Hr|]. apply (descendants_rec_sound _ _ _ _ Hr v), Hv.
  - intros n r H. unfold SearchTs.relatedAndSelf_rec in H.
    destruct (SearchTs.related_rec n id edges) as [q|] eqn:Hq; [|discriminate].
    injection H as <-. split.
    + rewrite in_app_iff, (Hrel n q Hq v). simpl. split.
      * intros [[H|H]|[H|[]]]; [left; exact H | right; left; exact H | right; right; auto].
      * intros [H|[H|H]]; [left; left; exact H | left; right; exact H | right; left; auto].
    + apply last_last.
  - intros n r H. unfold SearchTs.descendantsAndSelf_rec in H.
    destruct (SearchTs.descendants_rec n id edges) as [d|] eqn:Hd; [|discriminate].
    injection H as <-. split; [reflexivity|]. simpl.
    rewrite (descendants_rec_sound _ _ _ _ Hd v). split; intros [H|H]; auto.
Qed.

(** Instance of [search_derived_queries] on [(1,2),(1,3)]: [cousins 2]
    finishes with [[]], [relatedAndSelf 2] with [[1;2]], and 3 is a
    sibling of 2. *)
Lemma search_derived_queries_witness :
  SearchTs.relatedAndSelf_rec 5 2 [mkEdge 1 2; mkEdge 1 3] = Some [1; 2] /\
  SearchTs.cousins_rec 5 2 [mkEdge 1 2; mkEdge 1 3] = Some [] /\
  In 1 [1; 2] /\ In 3 (SearchTs.siblings 2 [mkEdge 1 2; mkEdge 1 3]).
Proof.
  assert (H : SearchTs.relatedAndSelf_rec 5 2 [mkEdge 1 2; mkEdge 1 3] = Some [1; 2])
    by (vm_compute; reflexivity).
  assert (Hc : SearchTs.cousins_rec 5 2 [mkEdge 1 2; mkEdge 1 3] = Some [])
    by (vm_compute; reflexivity).
  split; [exact H|]. split; [exact Hc|]. split.
  - destruct (search_derived_queries 2 1 [mkEdge 1 2; mkEdge 1 3])
      as (_ & _ & _ & _ & Hr & _).
    apply (Hr 5%nat [1; 2] H). left. apply tc_one. left. reflexivity.
  - destruct (search_derived_queries 2 3 [mkEdge 1 2; mkEdge 1 3]) as (Hs & _).
    apply Hs. split; [discriminate|]. exists 1.
    split; [left; reflexivity | right; left; reflexivity].
Defined.

(** ** [uniqueNumbers] keeps first occurrences *)

Lemma filter_filter_Z (p q : Z -> bool) (l : list Z) :
  filter p (filter q l) = filter (fun y => p y && q y) l.
Proof.
  induction l as [|x l IH]; simpl; [reflexivity|].
  destruct (q x); simpl; destruct (p x); simpl; rewrite ?IH; reflexivity.
Qed.

Lemma filter_all_true (f : Z -> bool) (l : list Z) :
  (forall y, In y l -> f y = true) -> filter f l = l.
Proof.
  induction l as [|x l IH]; intros H; simpl; [reflexivity|].
  rewrite (H x (or_introl eq_refl)), IH; [reflexivity|]. intros y Hy. apply H. right. exact Hy.
Qed.

Lemma set_has_app_one y acc x : set_has y (acc ++ [x]) = set_has y acc || Z.eqb y x.
Proof. unfold set_has. rewrite existsb_app. simpl. rewrite orb_false_r. reflexivity. Qed.

Lemma fold_set_add_acc l acc :
  fold_left (fun s x => set_add x s) l acc =
  acc ++ filter (fun x => negb (set_has x acc)) (fold_left (fun s x => set_add x s) l []).
Proof.
  revert acc. induction l as [|x l IH]; intros acc; cbn [fold_left];
    [rewrite app_nil_r; reflexivity|].
  change (set_add x []) with [x].
  rewrite (IH [x]), (IH (set_add x acc)).
  rewrite filter_app, filter_filter_Z. cbn [filter app].
  unfold set_add. destruct (set_has x acc) eqn:Hx; cbn [negb].
  - f_equal. apply filter_ext. intros y.
    destruct (Z.eqb_spec y x) as [->|Hne].
    + rewrite Hx. reflexivity.
    + unfold set_has at 2. simpl. apply Z.eqb_neq in Hne. rewrite Hne. simpl.
      rewrite andb_true_r. reflexivity.
  - rewrite <- app_assoc. simpl. f_equal. f_equal. apply filter_ext. intros y.
    rewrite set_has_app_one, negb_orb. unfold set_has at 2. simpl.
    rewrite orb_false_r. reflexivity.
Qed.

Lemma set_has_set_of_list x l : set_has x (set_of_list l) = set_has x l.
Proof.
  destruct (set_has x l) eqn:E.
  - apply set_has_In, In_set_of_list, set_has_In, E.
  - apply set_has_false. rewrite In_set_of_list. apply set_has_false, E.
Qed.

Lemma uniqueNumbers_app l1 l2 :
  uniqueNumbers (l1 ++ l2) =
  uniqueNumbers l1 ++ filter (fun x => negb (set_has x l1)) (uniqueNumbers l2).
Proof.
  unfold uniqueNumbers, set_of_list. rewrite fold_left_app, fold_set_add_acc.
  f_equal. apply filter_ext. intros x.
  change (fold_left (fun s x => set_add x s) l1 []) with (set_of_list l1).
  rewrite set_has_set_of_list. reflexivity.
Qed.

Lemma uniqueNumbers_NoDup_id l : NoDup l -> uniqueNumbers l = l.
Proof.
  induction 1 as [|x l Hx Hl IH]; [reflexivity|].
  change (x :: l) with ([x] ++ l). rewrite uniqueNumbers_app, IH.
  replace (uniqueNumbers [x]) with [x] by reflexivity. f_equal.
  apply filter_all_true. intros y Hy. apply negb_true_iff, set_has_false.
  intros [<-|[]]. exact (Hx Hy).
Qed.

(** [uniqueNumbers] ([Array.from(new Set(values))]) returns each value of
    its input once, in the order of first occurrence: its result is
    duplicate-free with the same elements, it returns a duplicate-free
    input unchanged (so applying it twice is applying it once), and on a
    concatenation it returns the result for the first part followed by
    the new values of the second part in their own first-occurrence order. *)
Theorem uniqueNumbers_spec (l l1 l2 : list Z) :
  NoDup (uniqueNumbers l) /\
  (forall v, In v (uniqueNumbers l) <-> In v l) /\
  (NoDup l -> uniqueNumbers l = l) /\
  uniqueNumbers (uniqueNumbers l) = uniqueNumbers l /\
  uniqueNumbers (l1 ++ l2) =
    uniqueNumbers l1 ++ filter (fun x => negb (set_has x l1)) (uniqueNumbers l2).
Proof.
  split; [apply NoDup_set_of_list|]. split; [intros v; apply In_set_of_list|].
  split; [apply uniqueNumbers_NoDup_id|].
  split; [apply uniqueNumbers_NoDup_id, NoDup_set_of_list | apply uniqueNumbers_app].
Qed.

(** Instance of [uniqueNumbers_spec]: the duplicate-free [[3;1;2]] is
    returned unchanged. *)
Lemma uniqueNumbers_spec_witness : NoDup [3; 1; 2] /\ uniqueNumbers [3; 1; 2] = [3; 1; 2].
Proof.
  assert (H : NoDup [3; 1; 2]).
  { constructor; [intros [H|[H|[]]]; discriminate|].
    constructor; [intros [H|[]]; discriminate|].
    constructor; [intros []|constructor]. }
  split; [exact H|]. destruct (uniqueNumbers_spec [3; 1; 2] [] []) as (_ & _ & Hid & _).
  apply Hid, H.
Defined.
